(** * Smart Notes: the indexing and retrieval pipeline of [backend/server.js]

    A shallow embedding of the chunker ([chunkText]) and of the three
    request handlers that drive the vector store ([/upload], [/search],
    [/delete/:filename]), together with the properties the specification
    states about them. *)

From Stdlib Require Import ZArith QArith.QArith_base Strings.String Strings.Ascii.
From Stdlib Require Import Numbers.DecimalString Numbers.DecimalNat.
From stdpp Require Import base list gmap.

Set Warnings "-register-all".
Open Scope Z_scope.

(** ** JavaScript strings

    A JavaScript string is a sequence of UTF-16 code units; [.length]
    counts code units, and both the regular-expression class [\s] and
    [String.prototype.trim] act on code units. *)

Definition char := N.
Definition jsstring := list char.

(** A Rocq literal (ASCII) read as a JavaScript string. *)
Definition js (s : string) : jsstring :=
  List.map N_of_ascii (list_ascii_of_string s).

(** ECMAScript WhiteSpace and LineTerminator code points: the class [\s],
    which is also what [trim] strips. *)
Definition isSpace (c : char) : bool :=
  ((9 <=? c) && (c <=? 13) || (c =? 32) || (c =? 160) || (c =? 5760)
   || (8192 <=? c) && (c <=? 8202) || (c =? 8232) || (c =? 8233)
   || (c =? 8239) || (c =? 8287) || (c =? 12288) || (c =? 65279))%N.

(** The class [[.?!]] of the look-behind. *)
Definition isTerminator (c : char) : bool :=
  ((c =? 46) || (c =? 63) || (c =? 33))%N.

Definition space : char := 32%N.

Fixpoint trimStart (s : jsstring) : jsstring :=
  match s with
  | c :: s' => if isSpace c then trimStart s' else s
  | [] => []
  end.

Definition trimEnd (s : jsstring) : jsstring := rev (trimStart (rev s)).

(** [s.trim()] *)
Definition trim (s : jsstring) : jsstring := trimEnd (trimStart s).

(** Truthiness of a string: non-empty. *)
Definition truthy (s : jsstring) : bool :=
  match s with [] => false | _ :: _ => true end.

(** [xs.join(sep)] *)
Fixpoint join (sep : jsstring) (xs : list jsstring) : jsstring :=
  match xs with
  | [] => []
  | [x] => x
  | x :: xs' => x ++ sep ++ join sep xs'
  end.

(** Decimal rendering of a non-negative integer, as a template literal
    prints a loop index. *)
Definition decimal (i : nat) : jsstring :=
  js (NilZero.string_of_uint (Nat.to_uint i)).

(** ** The chunker *)

(** Does the text scanned so far end in one of [.?!]?  This is the
    look-behind [(?<=[.?!])] at the current position. *)
Definition endsSentence (cur : jsstring) : bool :=
  match last cur with
  | Some c => isTerminator c
  | None => false
  end.

(** [text.split(/(?<=[.?!])\s+/)], as one left-to-right scan.  [cur] is
    the piece being collected and [skipping] says that the scan is inside
    a separator: a separator starts at a white-space character that
    directly follows a terminator and, [\s+] being greedy, runs to the end
    of that white-space run.  The piece open at the end of the text is
    always emitted, also when it is empty. *)
Fixpoint splitScan (cur : jsstring) (skipping : bool) (text : jsstring)
  : list jsstring :=
  match text with
  | [] => [cur]
  | c :: rest =>
      if isSpace c then
        if skipping then splitScan cur true rest
        else if endsSentence cur then cur :: splitScan [] true rest
        else splitScan (cur ++ [c]) false rest
      else splitScan (cur ++ [c]) false rest
  end.

Definition splitSentences (text : jsstring) : list jsstring :=
  splitScan [] false text.

(** The mutable locals [chunks] and [current] of [chunkText]. *)
Record ChunkState := { chunks : list jsstring; current : jsstring }.

(** One turn of [for (let sentence of sentences)]. *)
Definition chunkStep (chunkSize : Z) (st : ChunkState) (sentence : jsstring)
  : ChunkState :=
  if Z.of_nat (length (current st ++ sentence)) >? chunkSize then
    {| chunks := chunks st ++ [trim (current st)];
       current := sentence ++ [space] |}
  else
    {| chunks := chunks st;
       current := current st ++ sentence ++ [space] |}.

Definition chunkLoop (chunkSize : Z) (st : ChunkState)
  (sentences : list jsstring) : ChunkState :=
  fold_left (chunkStep chunkSize) sentences st.

(** The last statement of [chunkText]: flush a buffer that is not blank. *)
Definition chunkFlush (st : ChunkState) : list jsstring :=
  if truthy (trim (current st)) then chunks st ++ [trim (current st)]
  else chunks st.

Definition chunkSentences (sentences : list jsstring) (chunkSize : Z)
  : list jsstring :=
  chunkFlush (chunkLoop chunkSize {| chunks := []; current := [] |} sentences).

(** [chunkText(text, chunkSize)] *)
Definition chunkText (text : jsstring) (chunkSize : Z) : list jsstring :=
  chunkSentences (splitSentences text) chunkSize.

(** The default of the parameter [chunkSize]. *)
Definition defaultChunkSize : Z := 400.


(** ** JSON values and HTTP responses *)

Inductive json :=
| JNull
| JBool (b : bool)
| JNum (n : Z)
| JStr (s : jsstring)
| JArr (items : list json)
| JObj (fields : list (jsstring * json)).

(** [res.status(code).json(body)]; [res.json(body)] has status 200. *)
Record Response := { status : Z; body : json }.

(** ** The external collaborators

    The embedding and generation gateways, the vector store and the
    upload directory are not part of the repository.  Every call to one
    of them is recorded, with its outcome, in the world's event log; what
    a call answers, and whether it fails, is decided by a [Services]
    value, which sees the whole world (and so the whole history) at the
    time of the call. *)

Section Pipeline.

(** Embedding vectors are arrays of floating-point numbers that the
    pipeline only passes from the gateway to the store. *)
Context {Embedding : Type}.

(** The [message] of a thrown error. *)
Definition Error := jsstring.

Inductive Result (A : Type) :=
| Ok (a : A)
| Throw (e : Error).
Arguments Ok {A} a.
Arguments Throw {A} e.

(** The metadata object written by [/upload]. *)
Record Metadata := {
  md_file : jsstring;
  md_chunkIndex : Z;
  md_lineStart : Z;
  md_lineEnd : Z;
  md_text : jsstring }.

Record VectorRecord := {
  vr_id : jsstring;
  vr_values : Embedding;
  vr_metadata : Metadata }.

(** A query match as the store returns it: the metadata object and the
    fields [/search] reads from it may be absent. *)
Record HitMetadata := {
  hm_text : option jsstring;
  hm_lineStart : option Z;
  hm_lineEnd : option Z }.

Record Hit := {
  hit_id : jsstring;
  hit_score : Q;
  hit_metadata : option HitMetadata }.

Record ChatMessage := { role : jsstring; content : jsstring }.

Record ChatRequest := {
  chat_model : jsstring;
  chat_messages : list ChatMessage;
  chat_temperature : Q }.

Inductive Event :=
| Embedded (model input : jsstring) (out : Result Embedding)
| Upserted (ns : jsstring) (records : list VectorRecord) (out : Result unit)
| Listed (out : Result (option (list jsstring)))
| Queried (ns : jsstring) (vector : Embedding) (topK : Z)
    (includeMetadata : bool) (out : Result (option (list Hit)))
| DeletedAll (ns : jsstring) (out : Result unit)
| Completed (request : ChatRequest) (out : Result jsstring)
| Unlinked (name : jsstring) (out : Result unit).

(** [vectors]: the records of the index [notes-search], by namespace and
    then by id.  [uploads]: the names present in the upload directory. *)
Record World := {
  vectors : gmap jsstring (gmap jsstring VectorRecord);
  uploads : gset jsstring;
  events : list Event }.

Definition logEvent (ev : Event) (w : World) : World :=
  {| vectors := vectors w; uploads := uploads w; events := events w ++ [ev] |}.

Definition setVectors (v : gmap jsstring (gmap jsstring VectorRecord))
  (w : World) : World :=
  {| vectors := v; uploads := uploads w; events := events w |}.

Definition setUploads (u : gset jsstring) (w : World) : World :=
  {| vectors := vectors w; uploads := u; events := events w |}.

Record Services := {
  (** [openai.embeddings.create(...)], read at [.data[0].embedding] *)
  embeddings_create : World -> jsstring -> jsstring -> Result Embedding;
  (** [namespace.upsert(records)]: [Some e] when the write is refused *)
  upsert_fault : World -> jsstring -> list VectorRecord -> option Error;
  (** [index.listNamespaces()], read at [.namespaces] as a list of names *)
  listNamespaces : World -> Result (option (list jsstring));
  (** [namespace.query(...)], read at [.matches] *)
  query_matches :
    World -> jsstring -> Embedding -> Z -> bool -> Result (option (list Hit));
  (** [namespace.deleteAll()]: [Some e] when the store raises *)
  deleteAll_fault : World -> jsstring -> option Error;
  (** [openai.chat.completions.create(...)], read at
      [.choices[0].message.content] *)
  chat_create : World -> ChatRequest -> Result jsstring;
  (** [fs.unlinkSync(path)]: [Some e] when it raises *)
  unlink_fault : World -> jsstring -> option Error }.

(** ** Effects: state that survives a throw *)

Definition M (A : Type) : Type := World -> Result A * World.

Definition ret {A} (a : A) : M A := fun w => (Ok a, w).

Definition bind {A B} (m : M A) (k : A -> M B) : M B :=
  fun w =>
    match m w with
    | (Ok a, w') => k a w'
    | (Throw e, w') => (Throw e, w')
    end.

(** [try { body } catch (err) { handler(err.message) }] *)
Definition tryCatch {A} (body : M A) (handler : Error -> World -> A * World)
  : World -> A * World :=
  fun w =>
    match body w with
    | (Ok a, w') => (a, w')
    | (Throw e, w') => handler e w'
    end.

Notation "'let!' x ':=' m 'in' k" := (bind m (fun x => k))
  (at level 10, x name, m at level 100, k at level 200).
Notation "'run!' m 'in' k" := (bind m (fun _ => k))
  (at level 10, m at level 100, k at level 200).

Variable sv : Services.

Definition embed (model input : jsstring) : M Embedding :=
  fun w =>
    let out := embeddings_create sv w model input in
    (out, logEvent (Embedded model input out) w).

(** The store's contract for a write that succeeds: each record replaces
    the record of the same id in the namespace. *)
Definition storeRecords (ns : jsstring) (records : list VectorRecord)
  (v : gmap jsstring (gmap jsstring VectorRecord))
  : gmap jsstring (gmap jsstring VectorRecord) :=
  <[ns := foldl (fun m r => <[vr_id r := r]> m) (default ∅ (v !! ns)) records]> v.

Definition upsert (ns : jsstring) (records : list VectorRecord) : M unit :=
  fun w =>
    match upsert_fault sv w ns records with
    | Some e => (Throw e, logEvent (Upserted ns records (Throw e)) w)
    | None =>
        (Ok tt,
         logEvent (Upserted ns records (Ok tt))
           (setVectors (storeRecords ns records (vectors w)) w))
    end.

Definition listAll : M (option (list jsstring)) :=
  fun w =>
    let out := listNamespaces sv w in
    (out, logEvent (Listed out) w).

Definition query (ns : jsstring) (vector : Embedding) (topK : Z)
  (includeMetadata : bool) : M (option (list Hit)) :=
  fun w =>
    let out := query_matches sv w ns vector topK includeMetadata in
    (out, logEvent (Queried ns vector topK includeMetadata out) w).

(** The store's contract for a [deleteAll] that succeeds: the namespace
    holds no record afterwards. *)
Definition deleteAll (ns : jsstring) : M unit :=
  fun w =>
    match deleteAll_fault sv w ns with
    | Some e => (Throw e, logEvent (DeletedAll ns (Throw e)) w)
    | None =>
        (Ok tt,
         logEvent (DeletedAll ns (Ok tt)) (setVectors (delete ns (vectors w)) w))
    end.

Definition complete (request : ChatRequest) : M jsstring :=
  fun w =>
    let out := chat_create sv w request in
    (out, logEvent (Completed request out) w).

(** [fs.existsSync(path)] *)
Definition existsSync (name : jsstring) : M bool :=
  fun w => (Ok (bool_decide (name ∈ uploads w)), w).

Definition unlink (name : jsstring) : M unit :=
  fun w =>
    match unlink_fault sv w name with
    | Some e => (Throw e, logEvent (Unlinked name (Throw e)) w)
    | None =>
        (Ok tt,
         logEvent (Unlinked name (Ok tt)) (setUploads (uploads w ∖ {[name]}) w))
    end.

(** [catch (err) { res.status(500).json({ error: err.message }) }] *)
Definition errorResponse (e : Error) : Response :=
  {| status := 500; body := JObj [(js "error", JStr e)] |}.

Definition respond500 (e : Error) (w : World) : Response * World :=
  (errorResponse e, w).

(** ** [POST /upload]: the indexer *)

Definition embeddingModel : jsstring := js "text-embedding-3-small".

(** The record built for chunk [i] of file [name]. *)
Definition chunkRecord (name : jsstring) (i : nat) (chunk : jsstring)
  (values : Embedding) : VectorRecord :=
  let lineStart := Z.of_nat i * 15 + 1 in
  let lineEnd := (Z.of_nat i + 1) * 15 in
  {| vr_id := name ++ js "-" ++ decimal i;
     vr_values := values;
     vr_metadata :=
       {| md_file := name;
          md_chunkIndex := Z.of_nat i;
          md_lineStart := lineStart;
          md_lineEnd := lineEnd;
          md_text := chunk |} |}.

(** [for (let i = ...; i < chunks.length; i++)], entered at index [i] with
    the chunks from [i] on still to do. *)
Fixpoint indexFrom (name : jsstring) (i : nat) (rest : list jsstring)
  : M unit :=
  match rest with
  | [] => ret tt
  | chunk :: rest' =>
      let! emb := embed embeddingModel chunk in
      run! upsert name [chunkRecord name i chunk emb] in
      indexFrom name (S i) rest'
  end.

Definition indexChunks (name : jsstring) (chunkList : list jsstring) : M unit :=
  indexFrom name 0 chunkList.

Definition uploadOk (name : jsstring) (count : nat) : Response :=
  {| status := 200;
     body := JObj [(js "success", JBool true);
                   (js "message", JStr (name ++ js " uploaded & indexed successfully."));
                   (js "chunks", JNum (Z.of_nat count))] |}.

Definition noTextResponse : Response :=
  {| status := 400;
     body := JObj [(js "error", JStr (js "No readable text found in file."))] |}.

(** The handler from the point where [text] has been extracted from the
    stored upload [name] (the extraction adapters are external). *)
Definition upload (name text : jsstring) : World -> Response * World :=
  tryCatch
    (if negb (truthy (trim text)) then ret noTextResponse
     else
       let chunkList := chunkText text defaultChunkSize in
       run! indexChunks name chunkList in
       ret (uploadOk name (length chunkList)))
    respond500.

(** ** [POST /search]: retriever and answer synthesizer *)

Record Match := {
  m_file : jsstring;
  m_text : jsstring;
  m_lineStart : option Z;
  m_lineEnd : option Z }.

(** The object built from one store match [m] of namespace [ns]. *)
Definition toMatch (ns : jsstring) (m : Hit) : Match :=
  {| m_file := ns;
     m_text :=
       match hit_metadata m ≫= hm_text with
       | Some t => if truthy t then t else []
       | None => []
       end;
     m_lineStart := hit_metadata m ≫= hm_lineStart;
     m_lineEnd := hit_metadata m ≫= hm_lineEnd |}.

Definition topK : Z := 3.

(** [for (const ns of namespaces.namespaces || [])], with [allMatches]. *)
Fixpoint collectMatches (vector : Embedding) (namespaces : list jsstring)
  (allMatches : list Match) : M (list Match) :=
  match namespaces with
  | [] => ret allMatches
  | ns :: rest =>
      let! result := query ns vector topK true in
      match result with
      | Some (m :: ms) =>
          collectMatches vector rest (allMatches ++ List.map (toMatch ns) (m :: ms))
      | _ => collectMatches vector rest allMatches
      end
  end.

Definition retrieve (queryText : jsstring) : M (list Match) :=
  let! q_emb := embed embeddingModel queryText in
  let! namespaces := listAll in
  collectMatches q_emb (default [] namespaces) [].

Definition notFoundAnswer : jsstring :=
  js "I could not find that information in your documents.".

Definition notFoundResponse : Response :=
  {| status := 200;
     body := JObj [(js "answer", JStr notFoundAnswer); (js "sources", JArr [])] |}.

Definition newline : jsstring := [10%N].

Definition systemPrompt : jsstring :=
  js "You are a helpful assistant that answers based only on the provided document text. Be concise and accurate.".

Definition chatRequest (queryText context : jsstring) : ChatRequest :=
  {| chat_model := js "gpt-4o-mini";
     chat_messages :=
       [ {| role := js "system"; content := systemPrompt |};
         {| role := js "user";
            content := js "Question: " ++ queryText ++ newline ++ newline
                       ++ js "Context:" ++ newline ++ context |} ];
     chat_temperature := Qmake 3 100 |}.

Definition jsonOfLine (n : option Z) : json :=
  match n with Some z => JNum z | None => JNull end.

Definition sourceOf (m : Match) : json :=
  JObj [(js "file", JStr (m_file m));
        (js "lineStart", jsonOfLine (m_lineStart m));
        (js "lineEnd", jsonOfLine (m_lineEnd m));
        (js "text", JStr (m_text m))].

Definition answerResponse (answer : jsstring) (allMatches : list Match)
  : Response :=
  {| status := 200;
     body := JObj [(js "answer", JStr answer);
                   (js "sources", JArr (List.map sourceOf allMatches))] |}.

Definition synthesize (queryText : jsstring) (allMatches : list Match)
  : M Response :=
  match allMatches with
  | [] => ret notFoundResponse
  | _ :: _ =>
      let context := join (newline ++ newline) (List.map m_text allMatches) in
      let! completion := complete (chatRequest queryText context) in
      ret (answerResponse (trim completion) allMatches)
  end.

Definition queryRequiredResponse : Response :=
  {| status := 400; body := JObj [(js "error", JStr (js "Query required."))] |}.

(** [queryText] is [req.body.query]; [None] when the field is missing. *)
Definition search (queryText : option jsstring) : World -> Response * World :=
  tryCatch
    (match queryText with
     | Some q =>
         if truthy (trim q) then
           let! allMatches := retrieve q in
           synthesize q allMatches
         else ret queryRequiredResponse
     | None => ret queryRequiredResponse
     end)
    respond500.

(** ** [DELETE /delete/:filename] *)

Definition deletedResponse (filename : jsstring) : Response :=
  {| status := 200;
     body := JObj [(js "message", JStr (filename ++ js " deleted successfully."))] |}.

Definition deleteFile (filename : jsstring) : World -> Response * World :=
  tryCatch
    (run! deleteAll filename in
     let! present := existsSync filename in
     run! (if present : bool then unlink filename else ret tt) in
     ret (deletedResponse filename))
    respond500.

End Pipeline.

Arguments Ok {A} a.
Arguments Throw {A} e.
Arguments Services : clear implicits.
Arguments World : clear implicits.
Arguments Event : clear implicits.
Arguments VectorRecord : clear implicits.

(** ** Sentence groups

    A chunk is the trimmed buffer of a run of whole sentences. *)

Definition buffer (group : list jsstring) : jsstring :=
  flat_map (fun s => s ++ [space]) group.

Definition render (group : list jsstring) : jsstring := trim (buffer group).

(** The normalized sentence sequence of a text, in the specification's
    words: the sentences of the text separated by single spaces, without
    surrounding white space. *)
Definition normalizedSentences (text : jsstring) : jsstring :=
  trim (join [space] (splitSentences text)).

(** The soft bound on a finished chunk: if it is longer than the bound, it
    is a single sentence that is longer than the bound. *)
Definition softBound (chunkSize : Z) (group : list jsstring) : Prop :=
  Z.of_nat (length (render group)) > chunkSize ->
  exists s, group = [s] /\ Z.of_nat (length s) > chunkSize.

(** What the loop knows about the group whose buffer is still open. *)
Definition openBound (chunkSize : Z) (group : list jsstring) : Prop :=
  group = [] \/ (exists s, group = [s]) \/
  Z.of_nat (length (buffer group)) <= chunkSize + 1.

(** A chunk that is not empty and has no white space at either end. *)
Definition solid (c : jsstring) : Prop :=
  c <> [] /\ trimStart c = c /\ trimEnd c = c.

(** What the loop of [chunkText] maintains once the first sentence has been
    read, [full] being the buffer of all the sentences read so far: the
    chunks closed and the open buffer spell [full] up to leading white
    space, the chunks are solid, and an open buffer that follows a chunk
    starts with a sentence. *)
Definition roundInv (full : jsstring) (st : ChunkState) : Prop :=
  trimStart (buffer (chunks st) ++ current st) = trimStart full /\
  Forall solid (chunks st) /\
  (chunks st <> [] -> trimStart (current st) = current st \/ current st = [space]).

(** The open buffer ends with a sentence whose last character is not white
    space, and the space added after it. *)
Definition closable (st : ChunkState) : Prop :=
  exists Y c, current st = (Y ++ [c]) ++ [space] /\ isSpace c = false.

(** ** Reading the event log *)

Section Traces.

Context {Embedding : Type}.

(** The events a run from [w] to [w'] added to the log. *)
Definition newEvents (w w' : World Embedding) : list (Event Embedding) :=
  drop (length (events w)) (events w').

Definition upsertOf (ev : Event Embedding)
  : option (jsstring * list (VectorRecord Embedding)) :=
  match ev with
  | Upserted ns records _ => Some (ns, records)
  | _ => None
  end.

(** The upsert calls issued, in order, whatever their outcome. *)
Definition upsertsIssued (evs : list (Event Embedding))
  : list (jsstring * list (VectorRecord Embedding)) :=
  omap upsertOf evs.

Definition storedBy (ev : Event Embedding) : nat :=
  match ev with
  | Upserted _ records (Ok _) => length records
  | _ => 0%nat
  end.

(** The number of records written by upserts that succeeded. *)
Definition indexedCount (evs : list (Event Embedding)) : nat :=
  sum_list_with storedBy evs.

Definition isCompletion (ev : Event Embedding) : bool :=
  match ev with
  | Completed _ _ => true
  | _ => false
  end.

(** The error an event ended with, if it did. *)
Definition failure (ev : Event Embedding) : option Error :=
  match ev with
  | Embedded _ _ (Throw e) | Upserted _ _ (Throw e) | Listed (Throw e)
  | Queried _ _ _ _ (Throw e) | DeletedAll _ (Throw e)
  | Completed _ (Throw e) | Unlinked _ (Throw e) => Some e
  | _ => None
  end.

(** The events of indexing, without a failure, the chunks paired with the
    embeddings the gateway returned for them, from ordinal [i] on. *)
Fixpoint indexTrace (name : jsstring) (i : nat)
  (indexed : list (jsstring * Embedding)) : list (Event Embedding) :=
  match indexed with
  | [] => []
  | (chunk, values) :: rest =>
      Embedded embeddingModel chunk (Ok values)
      :: Upserted name [chunkRecord name i chunk values] (Ok tt)
      :: indexTrace name (S i) rest
  end.

(** The events of the attempt on chunk [i] that ends indexing with the
    error [e]: the embedding call failed, or it succeeded and the write
    failed. *)
Definition failedAttempt (name : jsstring) (i : nat) (chunk : jsstring)
  (e : Error) (attempt : list (Event Embedding)) : Prop :=
  attempt = [Embedded embeddingModel chunk (Throw e)] \/
  exists values,
    attempt = [Embedded embeddingModel chunk (Ok values);
               Upserted name [chunkRecord name i chunk values] (Throw e)].

(** The events of a sweep over the namespaces in which each query was
    answered. *)
Definition queryTrace (vector : Embedding) (namespaces : list jsstring)
  (answers : list (option (list Hit))) : list (Event Embedding) :=
  zip_with (fun ns a => Queried ns vector topK true (Ok a)) namespaces answers.

(** The matches of each namespace, namespace after namespace. *)
Definition pooled (namespaces : list jsstring)
  (answers : list (option (list Hit))) : list Match :=
  concat (zip_with (fun ns a => List.map (toMatch ns) (default [] a))
            namespaces answers).

Definition emptyWorld : World Embedding :=
  {| vectors := ∅; uploads := ∅; events := [] |}.

(** What an event did to the store. *)
Definition applyEvent (v : gmap jsstring (gmap jsstring (VectorRecord Embedding)))
  (ev : Event Embedding) : gmap jsstring (gmap jsstring (VectorRecord Embedding)) :=
  match ev with
  | Upserted ns records (Ok _) => storeRecords ns records v
  | DeletedAll ns (Ok _) => delete ns v
  | _ => v
  end.

Definition replay (evs : list (Event Embedding))
  (v : gmap jsstring (gmap jsstring (VectorRecord Embedding)))
  : gmap jsstring (gmap jsstring (VectorRecord Embedding)) :=
  foldl applyEvent v evs.

(** The record stored under [id] in namespace [ns]. *)
Definition recordAt (v : gmap jsstring (gmap jsstring (VectorRecord Embedding)))
  (ns id : jsstring) : option (VectorRecord Embedding) :=
  v !! ns ≫= fun m => m !! id.

End Traces.

(** ** Three stores to run the handlers on

    [memoryStore] never fails and answers a query with the first records
    of the namespace; [strictStore] is the same store except that
    [deleteAll] raises on a namespace that does not exist;
    [quotaAfter k] is [memoryStore] with an embedding gateway that fails
    once [k] embeddings have been served. *)

Definition hitOf (r : VectorRecord (list Q)) : Hit :=
  {| hit_id := vr_id r;
     hit_score := 1;
     hit_metadata :=
       Some {| hm_text := Some (md_text (vr_metadata r));
               hm_lineStart := Some (md_lineStart (vr_metadata r));
               hm_lineEnd := Some (md_lineEnd (vr_metadata r)) |} |}.

Definition memoryStore : Services (list Q) :=
  {| embeddings_create := fun _ _ input => Ok [Z.of_nat (length input) # 1];
     upsert_fault := fun _ _ _ => None;
     listNamespaces := fun w => Ok (Some (List.map fst (map_to_list (vectors w))));
     query_matches := fun w ns _ k _ =>
       Ok (Some (take (Z.to_nat k)
                   (List.map (fun kv => hitOf (snd kv))
                      (map_to_list (default ∅ (vectors w !! ns))))));
     deleteAll_fault := fun _ _ => None;
     chat_create := fun _ _ => Ok (js " Forty-two. ");
     unlink_fault := fun _ _ => None |}.

Definition strictStore : Services (list Q) :=
  {| embeddings_create := embeddings_create memoryStore;
     upsert_fault := upsert_fault memoryStore;
     listNamespaces := listNamespaces memoryStore;
     query_matches := query_matches memoryStore;
     deleteAll_fault := fun w ns =>
       match vectors w !! ns with
       | Some _ => None
       | None => Some (js "Namespace not found")
       end;
     chat_create := chat_create memoryStore;
     unlink_fault := unlink_fault memoryStore |}.

(** The number of embeddings the gateway has served so far. *)
Definition served (evs : list (Event (list Q))) : nat :=
  length (List.filter
            (fun ev => match ev with Embedded _ _ (Ok _) => true | _ => false end)
            evs).

Definition quotaAfter (k : nat) : Services (list Q) :=
  {| embeddings_create := fun w model input =>
       if (served (events w) <? k)%nat
       then embeddings_create memoryStore w model input
       else Throw (js "quota exceeded");
     upsert_fault := upsert_fault memoryStore;
     listNamespaces := listNamespaces memoryStore;
     query_matches := query_matches memoryStore;
     deleteAll_fault := deleteAll_fault memoryStore;
     chat_create := chat_create memoryStore;
     unlink_fault := unlink_fault memoryStore |}.

(** The scenario text of the specification. *)
Definition scenario : jsstring := js "A cat sat. A dog ran. A bird flew.".

(** The text and line range of every record a run asked the store to
    write. *)
Definition writtenRanges (evs : list (Event (list Q)))
  : list (list (jsstring * Z * Z)) :=
  List.map
    (fun u => List.map
                (fun r => (md_text (vr_metadata r), md_lineStart (vr_metadata r),
                           md_lineEnd (vr_metadata r)))
                (snd u))
    (upsertsIssued evs).

(** A text of one sentence of 401 characters. *)
Definition longSentence : jsstring := repeat 97%N 401.

(** A text of two sentences of 301 characters each. *)
Definition twoLongSentences : jsstring :=
  repeat 97%N 300 ++ js ". " ++ repeat 98%N 300 ++ js ".".

(** ** [POST /upload]: from the request to the extracted text *)

Definition lessThan : char := 60%N.
Definition greaterThan : char := 62%N.

(** [raw.replace(/<[^>]+>/g, " ")], as one left-to-right scan.  A match
    starts at a [<], takes every following character that is not [>], at
    least one, and ends at the [>] after them.  [pending] holds the
    characters read since a [<] that may still become a match: at a [>]
    they are replaced by one space, unless there is none (the text [<>]
    matches nothing); at the end of the text they were no match and stay. *)
Fixpoint stripScan (pending : option jsstring) (raw : jsstring) : jsstring :=
  match raw with
  | [] =>
      match pending with
      | Some held => lessThan :: held
      | None => []
      end
  | c :: rest =>
      match pending with
      | None =>
          if (c =? lessThan)%N then stripScan (Some []) rest
          else c :: stripScan None rest
      | Some held =>
          if (c =? greaterThan)%N then
            match held with
            | [] => lessThan :: greaterThan :: stripScan None rest
            | _ :: _ => space :: stripScan None rest
            end
          else stripScan (Some (held ++ [c])) rest
      end
  end.

Definition stripTags (raw : jsstring) : jsstring := stripScan None raw.

Section Requests.

Context {Embedding : Type}.

(** The file system and the extraction adapters, as far as the handlers
    use them.  [lowerExt name] is [path.extname(name).toLowerCase()];
    [read_text] is [fs.readFileSync(path, "utf-8")] on a stored upload;
    [pdf_text] is the [text] field of what [pdf-parse] makes of it. *)
Record FileServices := {
  lowerExt : jsstring -> jsstring;
  (** [file.mv(path)]: [Some e] when it rejects *)
  mv_fault : World Embedding -> jsstring -> option Error;
  read_text : World Embedding -> jsstring -> Result jsstring;
  pdf_text : World Embedding -> jsstring -> Result (option jsstring);
  (** [fs.readdirSync(uploadDir)]: [Some e] when it raises *)
  readdir_fault : World Embedding -> option Error }.

Variable fs : FileServices.
Variable sv : Services Embedding.

Notation "'let!' x ':=' m 'in' k" := (bind m (fun x => k))
  (at level 10, x name, m at level 100, k at level 200).
Notation "'run!' m 'in' k" := (bind m (fun _ => k))
  (at level 10, m at level 100, k at level 200).

Definition mv (name : jsstring) : M unit :=
  fun w =>
    match mv_fault fs w name with
    | Some e => (Throw e, w)
    | None => (Ok tt, setUploads ({[name]} ∪ uploads w) w)
    end.

Definition readText (name : jsstring) : M jsstring :=
  fun w => (read_text fs w name, w).

Definition pdfParse (name : jsstring) : M (option jsstring) :=
  fun w => (pdf_text fs w name, w).

(** [res.status(400).send("No file uploaded.")] *)
Definition noFileResponse : Response :=
  {| status := 400; body := JStr (js "No file uploaded.") |}.

Definition unsupportedResponse : Response :=
  {| status := 400;
     body := JObj [(js "error", JStr (js "Only PDF, TXT, and HTML supported."))] |}.

(** The rest of the handler once the text is extracted is [upload]; an
    error it catches is answered as the enclosing [catch] answers it. *)
Definition indexText (name text : jsstring) : M Response :=
  fun w => let (response, w') := upload sv name text w in (Ok response, w').

(** The whole handler of [POST /upload]; [file] is the name of
    [req.files.file], [None] when the request carries none. *)
Definition uploadRequest (file : option jsstring)
  : World Embedding -> Response * World Embedding :=
  tryCatch
    (match file with
     | None => ret noFileResponse
     | Some name =>
         run! mv name in
         let ext := lowerExt fs name in
         if bool_decide (ext = js ".pdf") then
           let! pdfData := pdfParse name in
           indexText name (default [] pdfData)
         else if bool_decide (ext = js ".txt") then
           let! text := readText name in
           indexText name text
         else if bool_decide (ext = js ".html") || bool_decide (ext = js ".htm") then
           let! raw := readText name in
           indexText name (stripTags raw)
         else ret unsupportedResponse
     end)
    respond500.

(** ** [GET /files] *)

Definition listFailedResponse : Response :=
  {| status := 500;
     body := JObj [(js "error", JStr (js "Failed to list files."))] |}.

(** The names are given in the order of the set; the order in which the
    directory is read is the system's. *)
Definition listFiles (w : World Embedding) : Response * World Embedding :=
  match readdir_fault fs w with
  | Some _ => (listFailedResponse, w)
  | None =>
      ({| status := 200; body := JArr (JStr <$> elements (uploads w)) |}, w)
  end.

End Requests.

Arguments FileServices : clear implicits.

(** A file system that never fails: every stored upload reads as the same
    two sentences wrapped in markup, and the extension is the text from
    the last dot on. *)
Fixpoint fromLastDot (name : jsstring) : option jsstring :=
  match name with
  | [] => None
  | c :: rest =>
      match fromLastDot rest with
      | Some ext => Some ext
      | None => if (c =? 46)%N then Some (c :: rest) else None
      end
  end.

Definition plainFiles : FileServices (list Q) :=
  {| lowerExt := fun name => default [] (fromLastDot name);
     mv_fault := fun _ _ => None;
     read_text := fun _ _ => Ok (js "<p>One.</p> <p>Two.</p>");
     pdf_text := fun _ _ => Ok (Some (js "One. Two."));
     readdir_fault := fun _ => None |}.

(** The characters of a text that are not white space. *)
Definition inked (s : jsstring) : jsstring :=
  List.filter (fun c => negb (isSpace c)) s.


(** The world after a first upload of a short text as [a.txt], and the
    match a query finds in it. *)
Definition afterUpload : World (list Q) :=
  (upload memoryStore (js "a.txt") (js "One. Two.") emptyWorld).2.


(** * Properties of the chunker *)

(** The scan on a few texts: runs of white space after a terminator
    separate, a terminator inside a token does not, and white space at the
    end of the text leaves an empty last piece. *)
Example splitSentences_runs :
  splitSentences (N.of_nat <$> [65; 46; 32; 10; 66; 63; 9; 67; 33; 32])%nat
  = [js "A."; js "B?"; js "C!"; []].
Proof. reflexivity. Qed.

Example splitSentences_inside_token :
  splitSentences (js "Pi is 3.14 here. Yes") = [js "Pi is 3.14 here."; js "Yes"].
Proof. reflexivity. Qed.

Example splitSentences_empty : splitSentences [] = [[]].
Proof. reflexivity. Qed.

Example trim_both_ends : trim (js "  a b  ") = js "a b".
Proof. reflexivity. Qed.

Example chunkText_short : chunkText (js "One. Two.") defaultChunkSize = [js "One. Two."].
Proof. reflexivity. Qed.

Example chunkText_blank : chunkText (js "   ") defaultChunkSize = [].
Proof. reflexivity. Qed.

Example chunkText_two_long :
  List.map length (chunkText twoLongSentences defaultChunkSize) = [301; 301]%nat.
Proof. vm_compute. reflexivity. Qed.

Example decimal_120 : decimal 120 = js "120".
Proof. reflexivity. Qed.

Lemma trimStart_app_space x c :
  isSpace c = true ->
  (trimStart x = [] /\ trimStart (x ++ [c]) = []) \/
  (trimStart x <> [] /\ trimStart (x ++ [c]) = trimStart x ++ [c]).
Proof.
  intros Hc. induction x as [|a x IH]; simpl.
  - rewrite Hc. by left.
  - destruct (isSpace a); [exact IH|]. by right.
Qed.

Lemma trimEnd_app_space x c : isSpace c = true -> trimEnd (x ++ [c]) = trimEnd x.
Proof.
  intros Hc. unfold trimEnd. rewrite rev_app_distr. simpl. by rewrite Hc.
Qed.

Lemma trim_app_space x c : isSpace c = true -> trim (x ++ [c]) = trim x.
Proof.
  intros Hc. unfold trim.
  destruct (trimStart_app_space x c Hc) as [[H1 H2]|[H1 H2]]; rewrite H2.
  - by rewrite H1.
  - by apply trimEnd_app_space.
Qed.

Lemma trimStart_length s : (length (trimStart s) <= length s)%nat.
Proof.
  induction s as [|c s IH]; simpl; [lia|].
  destruct (isSpace c); simpl; lia.
Qed.

Lemma trim_length s : (length (trim s) <= length s)%nat.
Proof.
  unfold trim, trimEnd. rewrite length_rev.
  etrans; [apply trimStart_length|]. rewrite length_rev. apply trimStart_length.
Qed.

Lemma isSpace_space : isSpace space = true.
Proof. reflexivity. Qed.

Lemma buffer_app g1 g2 : buffer (g1 ++ g2) = buffer g1 ++ buffer g2.
Proof. unfold buffer. apply flat_map_app. Qed.

Lemma buffer_single s : buffer [s] = s ++ [space].
Proof. unfold buffer. simpl. by rewrite app_nil_r. Qed.

Lemma render_snoc_length g s :
  (length (render (g ++ [s])) <= length (buffer g ++ s))%nat.
Proof.
  unfold render. rewrite buffer_app, buffer_single, app_assoc.
  rewrite trim_app_space by apply isSpace_space. apply trim_length.
Qed.

Section ChunkLoop.

Variable chunkSize : Z.

Lemma openBound_softBound g :
  0 <= chunkSize -> openBound chunkSize g -> softBound chunkSize g.
Proof.
  intros Hn [->|[[s ->]|Hlen]] Hbig.
  - simpl in Hbig. lia.
  - exists s. split; [done|].
    pose proof (render_snoc_length [] s) as H. simpl in H. lia.
  - exfalso. destruct g as [|s0 g0]; [simpl in Hbig; lia|].
    destruct (exists_last (l := s0 :: g0)) as [g' [s Heq]]; [done|].
    rewrite Heq in Hbig, Hlen.
    pose proof (render_snoc_length g' s) as H.
    rewrite buffer_app, buffer_single, app_assoc, length_app in Hlen.
    simpl in Hlen. lia.
Qed.

(** The loop only ever closes a buffer made of whole sentences, and keeps
    the sentences in order. *)
Lemma chunkLoop_groups sentences : forall st gs g,
  0 <= chunkSize ->
  chunks st = List.map render gs -> current st = buffer g ->
  Forall (softBound chunkSize) gs -> openBound chunkSize g ->
  exists gs' g',
    chunks (chunkLoop chunkSize st sentences) = List.map render gs' /\
    current (chunkLoop chunkSize st sentences) = buffer g' /\
    concat gs' ++ g' = concat gs ++ g ++ sentences /\
    Forall (softBound chunkSize) gs' /\ openBound chunkSize g'.
Proof.
  induction sentences as [|s rest IH]; intros st gs g Hn Hch Hcur Hgs Hg.
  - exists gs, g. simpl. by rewrite app_nil_r.
  - change (chunkLoop chunkSize st (s :: rest))
      with (chunkLoop chunkSize (chunkStep chunkSize st s) rest).
    unfold chunkStep.
    destruct (Z.of_nat (length (current st ++ s)) >? chunkSize) eqn:Hcmp.
    + destruct (IH {| chunks := chunks st ++ [trim (current st)];
                      current := s ++ [space] |} (gs ++ [g]) [s])
        as (gs' & g' & H1 & H2 & H3 & H4 & H5); cbn [chunks current].
      * done.
      * rewrite List.map_app, Hch, Hcur. done.
      * by rewrite buffer_single.
      * apply Forall_app. split; [done|]. constructor; [|constructor].
        by apply openBound_softBound.
      * right. left. by exists s.
      * exists gs', g'. split; [done|]. split; [done|]. split; [|done].
        rewrite H3, concat_app. simpl. by rewrite app_nil_r, <- !app_assoc.
    + destruct (IH {| chunks := chunks st;
                      current := current st ++ s ++ [space] |} gs (g ++ [s]))
        as (gs' & g' & H1 & H2 & H3 & H4 & H5); cbn [chunks current].
      * done.
      * done.
      * by rewrite buffer_app, buffer_single, Hcur.
      * done.
      * right. right. rewrite buffer_app, buffer_single, app_assoc, length_app.
        rewrite <- Hcur. simpl. rewrite Z.gtb_ltb, Z.ltb_ge in Hcmp. lia.
      * exists gs', g'. split; [done|]. split; [done|]. split; [|done].
        rewrite H3. by rewrite <- !app_assoc.
Qed.

End ChunkLoop.

(** C2.  For every text and every [chunkSize >= 1], the chunks are the
    trimmed buffers of consecutive runs of whole sentences of the text (so
    no chunk boundary falls inside a sentence; only a blank last run is
    left out), and a chunk longer than [chunkSize] is a single sentence
    that is itself longer than [chunkSize]. *)
Theorem chunkText_sentence_aligned (text : jsstring) (chunkSize : Z) :
  1 <= chunkSize ->
  exists (groups : list (list jsstring)) (blank : list jsstring),
    concat groups ++ blank = splitSentences text /\
    chunkText text chunkSize = List.map render groups /\
    render blank = [] /\
    Forall (fun group =>
              Z.of_nat (length (render group)) > chunkSize ->
              exists s, group = [s] /\ Z.of_nat (length s) > chunkSize)
           groups.
Proof.
  intros Hn. unfold chunkText, chunkSentences.
  destruct (chunkLoop_groups chunkSize (splitSentences text)
              {| chunks := []; current := [] |} [] [])
    as (gs & g & H1 & H2 & H3 & H4 & H5); simpl; try done; try lia.
  - by left.
  - unfold chunkFlush. rewrite H1, H2. fold (render g).
    destruct (truthy (render g)) eqn:Ht.
    + exists (gs ++ [g]), []. repeat split.
      * rewrite concat_app. simpl. by rewrite !app_nil_r.
      * by rewrite List.map_app.
      * apply Forall_app. split; [done|]. constructor; [|constructor].
        apply openBound_softBound; [lia|done].
    + exists gs, g. repeat split; try done.
      by destruct (render g).
Qed.

(** Witness for C2: the scenario text of the specification at bound 20. *)
Lemma chunkText_sentence_aligned_witness :
  1 <= 20 /\
  exists (groups : list (list jsstring)) (blank : list jsstring),
    concat groups ++ blank = splitSentences (js "A cat sat. A dog ran. A bird flew.") /\
    chunkText (js "A cat sat. A dog ran. A bird flew.") 20 = List.map render groups /\
    render blank = [] /\
    Forall (fun group =>
              Z.of_nat (length (render group)) > 20 ->
              exists s, group = [s] /\ Z.of_nat (length s) > 20)
           groups.
Proof.
  split; [lia|].
  apply (chunkText_sentence_aligned (js "A cat sat. A dog ran. A bird flew.") 20).
  lia.
Defined.

Lemma chunkLoop_chunks_prefix chunkSize sentences : forall st,
  exists extra, chunks (chunkLoop chunkSize st sentences) = chunks st ++ extra.
Proof.
  induction sentences as [|s rest IH]; intros st.
  - exists []. simpl. by rewrite app_nil_r.
  - change (chunkLoop chunkSize st (s :: rest))
      with (chunkLoop chunkSize (chunkStep chunkSize st s) rest).
    destruct (IH (chunkStep chunkSize st s)) as [extra ->].
    unfold chunkStep. destruct (_ >? _); cbn [chunks].
    + exists ([trim (current st)] ++ extra). by rewrite app_assoc.
    + by exists extra.
Qed.

Lemma chunkFlush_prefix st : exists extra, chunkFlush st = chunks st ++ extra.
Proof.
  unfold chunkFlush. destruct (truthy _).
  - by eexists.
  - exists []. by rewrite app_nil_r.
Qed.

(** C3, as stated, fails: the chunker does not return the two chunks of
    the scenario. *)
Lemma scenario_two_chunks_refuted :
  chunkText scenario 20 <> [js "A cat sat. A dog ran."; js "A bird flew."].
Proof. intros H. vm_compute in H. discriminate H. Qed.

(** C3, amended.  Chunking the scenario text with bound 20 yields three
    chunks, one per sentence, because the buffer is closed before a
    sentence that would take it past the bound; indexing them writes the
    line ranges [1,15], [16,30] and [31,45]. *)
Theorem scenario_three_chunks :
  chunkText scenario 20 = [js "A cat sat."; js "A dog ran."; js "A bird flew."] /\
  writtenRanges
    (events (indexChunks memoryStore (js "cats.txt") (chunkText scenario 20)
               emptyWorld).2)
  = [[(js "A cat sat.", 1, 15)]; [(js "A dog ran.", 16, 30)];
     [(js "A bird flew.", 31, 45)]].
Proof. split; vm_compute; reflexivity. Qed.

(** C10, as stated, fails on a blank text: the first sentence is longer
    than the bound, and the output is the empty chunk alone, with no chunk
    after it. *)
Lemma blank_text_only_empty_chunk :
  splitSentences (js "   ") = [js "   "] /\
  Z.of_nat (length (js "   ")) > 2 /\
  chunkText (js "   ") 2 !! 0%nat = Some [] /\
  forall i, (0 < i)%nat -> chunkText (js "   ") 2 !! i = None.
Proof.
  repeat split.
  intros [|i] Hi; [lia|]. reflexivity.
Qed.

(** C10, amended.  When the first sentence of the text is longer than
    [chunkSize], chunk 0 is the empty string; and when that sentence is
    not blank, chunk 1 is the sentence, trimmed. *)
Theorem chunkText_oversized_first_sentence
  (text : jsstring) (chunkSize : Z) (s : jsstring) (rest : list jsstring) :
  splitSentences text = s :: rest ->
  Z.of_nat (length s) > chunkSize ->
  chunkText text chunkSize !! 0%nat = Some [] /\
  (trim s <> [] -> chunkText text chunkSize !! 1%nat = Some (trim s)).
Proof.
  intros Hsplit Hlong. unfold chunkText, chunkSentences. rewrite Hsplit.
  change (chunkLoop chunkSize {| chunks := []; current := [] |} (s :: rest))
    with (chunkLoop chunkSize
            (chunkStep chunkSize {| chunks := []; current := [] |} s) rest).
  assert (chunkStep chunkSize {| chunks := []; current := [] |} s
          = {| chunks := [[]]; current := s ++ [space] |}) as ->.
  { unfold chunkStep. cbn [current chunks app].
    destruct (Z.of_nat (length s) >? chunkSize) eqn:Hcmp; [reflexivity|].
    rewrite Z.gtb_ltb, Z.ltb_ge in Hcmp. lia. }
  set (st1 := {| chunks := [[]]; current := s ++ [space] |}).
  split.
  - destruct (chunkLoop_chunks_prefix chunkSize rest st1) as [e1 H1].
    destruct (chunkFlush_prefix (chunkLoop chunkSize st1 rest)) as [e2 H2].
    rewrite H2, H1. reflexivity.
  - intros Hne. destruct rest as [|s2 rest'].
    + simpl. unfold chunkFlush. cbn [current chunks st1].
      rewrite trim_app_space by apply isSpace_space.
      destruct (trim s) eqn:Ht; [done|]. reflexivity.
    + change (chunkLoop chunkSize st1 (s2 :: rest'))
        with (chunkLoop chunkSize (chunkStep chunkSize st1 s2) rest').
      unfold chunkStep. cbn [current chunks st1].
      destruct (Z.of_nat (length ((s ++ [space]) ++ s2)) >? chunkSize) eqn:Hc2.
      * rewrite trim_app_space by apply isSpace_space.
        set (st2 := {| chunks := _; current := _ |}).
        destruct (chunkLoop_chunks_prefix chunkSize rest' st2) as [e1 H1].
        destruct (chunkFlush_prefix (chunkLoop chunkSize st2 rest')) as [e2 H2].
        rewrite H2, H1. reflexivity.
      * rewrite Z.gtb_ltb, Z.ltb_ge in Hc2. rewrite !length_app in Hc2. lia.
Qed.

(** Witness for C10: a text of one sentence of twelve characters, bound 5. *)
Lemma chunkText_oversized_first_sentence_witness :
  chunkText (js "Hello world.") 5 !! 0%nat = Some [] /\
  (trim (js "Hello world.") <> [] ->
   chunkText (js "Hello world.") 5 !! 1%nat = Some (trim (js "Hello world."))).
Proof.
  apply (chunkText_oversized_first_sentence (js "Hello world.") 5
           (js "Hello world.") []).
  - reflexivity.
  - vm_compute. reflexivity.
Defined.

(** ** Lossless reconstruction *)

Lemma trimStart_idem s : trimStart (trimStart s) = trimStart s.
Proof.
  induction s as [|c s IH]; simpl; [done|].
  destruct (isSpace c) eqn:Hc; [done|]. simpl. by rewrite Hc.
Qed.

Lemma trimStart_app_nonblank x z :
  trimStart x <> [] -> trimStart (x ++ z) = trimStart x ++ z.
Proof.
  induction x as [|c x IH]; simpl; [done|].
  destruct (isSpace c); [exact IH|done].
Qed.

Lemma trimStart_app_blank x z :
  trimStart x = [] -> trimStart (x ++ z) = trimStart z.
Proof.
  induction x as [|c x IH]; simpl; [done|].
  destruct (isSpace c); [exact IH|done].
Qed.

Lemma trimStart_blank_rev x : trimStart x = [] -> trimStart (rev x) = [].
Proof.
  induction x as [|c x IH]; simpl; [done|].
  destruct (isSpace c) eqn:Hc; [|done].
  intros Hx. rewrite trimStart_app_blank by auto. simpl. by rewrite Hc.
Qed.

Lemma trimEnd_app_nonblank y x :
  trimEnd x <> [] -> trimEnd (y ++ x) = y ++ trimEnd x.
Proof.
  unfold trimEnd. intros Hx. rewrite rev_app_distr.
  rewrite trimStart_app_nonblank.
  - by rewrite rev_app_distr, rev_involutive.
  - intros H. apply Hx. by rewrite H.
Qed.

Lemma trimEnd_app_blank y x : trimStart x = [] -> trimEnd (y ++ x) = trimEnd y.
Proof.
  unfold trimEnd. intros Hx. rewrite rev_app_distr.
  by rewrite trimStart_app_blank by by apply trimStart_blank_rev.
Qed.

Lemma trimStart_snoc_solid Y c :
  isSpace c = false -> exists Z, trimStart (Y ++ [c]) = Z ++ [c].
Proof.
  intros Hc. induction Y as [|a Y IH]; simpl.
  - rewrite Hc. by exists [].
  - destruct (isSpace a); [exact IH|]. by exists (a :: Y).
Qed.

Lemma trimEnd_snoc_solid Z c : isSpace c = false -> trimEnd (Z ++ [c]) = Z ++ [c].
Proof.
  intros Hc. unfold trimEnd. rewrite rev_app_distr. simpl. rewrite Hc.
  simpl. by rewrite rev_involutive.
Qed.

Lemma isTerminator_not_space c : isTerminator c = true -> isSpace c = false.
Proof.
  unfold isTerminator. intros H.
  apply orb_prop in H as [H|H]; [apply orb_prop in H as [H|H]|];
    apply N.eqb_eq in H; by subst.
Qed.

Lemma endsSentence_snoc s :
  endsSentence s = true -> exists Y c, s = Y ++ [c] /\ isSpace c = false.
Proof.
  unfold endsSentence. destruct (last s) as [c|] eqn:Hl; [|done].
  intros Hc. apply last_Some in Hl as [Y ->].
  exists Y, c. split; [done|]. by apply isTerminator_not_space.
Qed.

Lemma splitScan_nonempty text : forall cur sk, splitScan cur sk text <> [].
Proof.
  induction text as [|c text IH]; intros cur sk; simpl; [done|].
  destruct (isSpace c); [destruct sk; [apply IH|]|apply IH].
  destruct (endsSentence cur); [done|apply IH].
Qed.

Lemma removelast_cons {A} (x : A) l : l <> [] -> removelast (x :: l) = x :: removelast l.
Proof. by destruct l. Qed.

(** Every sentence but the last ends in a terminator. *)
Lemma splitScan_ends text : forall cur sk,
  Forall (fun s => endsSentence s = true) (removelast (splitScan cur sk text)).
Proof.
  induction text as [|c text IH]; intros cur sk; simpl; [constructor|].
  destruct (isSpace c); [destruct sk; [apply IH|]|apply IH].
  destruct (endsSentence cur) eqn:He; [|apply IH].
  rewrite removelast_cons by apply splitScan_nonempty.
  constructor; [done|apply IH].
Qed.

Lemma trimStart_fixed_app s z :
  s <> [] -> trimStart s = s -> trimStart (s ++ z) = s ++ z.
Proof.
  intros Hne Hs. rewrite trimStart_app_nonblank; by rewrite Hs.
Qed.

(** A sentence that starts after a separator does not start with white
    space. *)
Lemma splitScan_starts text : forall cur sk,
  (sk = true /\ cur = []) \/ (sk = false /\ cur <> [] /\ trimStart cur = cur) ->
  Forall (fun s => trimStart s = s) (splitScan cur sk text).
Proof.
  induction text as [|c text IH]; intros cur sk Hst; simpl.
  - constructor; [|constructor]. by destruct Hst as [[_ ->]|(_ & _ & H)].
  - destruct (isSpace c) eqn:Hc.
    + destruct sk.
      * apply IH. left. by destruct Hst as [[_ ->]|(H & _)].
      * destruct Hst as [[H _]|(_ & Hne & Hcur)]; [done|].
        destruct (endsSentence cur).
        -- constructor; [done|]. apply IH. by left.
        -- apply IH. right. split; [done|]. split; [by destruct cur|].
           by apply trimStart_fixed_app.
    + apply IH. right. split; [done|]. split; [by destruct cur|].
      destruct Hst as [[_ ->]|(_ & Hne & Hcur)].
      * simpl. by rewrite Hc.
      * by apply trimStart_fixed_app.
Qed.

Lemma splitScan_tail_starts text : forall cur sk,
  Forall (fun s => trimStart s = s) (tail (splitScan cur sk text)).
Proof.
  induction text as [|c text IH]; intros cur sk; simpl; [constructor|].
  destruct (isSpace c); [destruct sk; [apply IH|]|apply IH].
  destruct (endsSentence cur); [|apply IH].
  simpl. apply splitScan_starts. by left.
Qed.

Lemma buffer_join l : l <> [] -> buffer l = join [space] l ++ [space].
Proof.
  induction l as [|s l IH]; [done|]. intros _.
  destruct l as [|s' l]; [by rewrite buffer_single|].
  change (buffer (s :: s' :: l)) with ((s ++ [space]) ++ buffer (s' :: l)).
  rewrite IH by done. change (join [space] (s :: s' :: l))
    with (s ++ [space] ++ join [space] (s' :: l)).
  by rewrite <- !app_assoc.
Qed.

Lemma join_snoc l c : l <> [] -> join [space] (l ++ [c]) = buffer l ++ c.
Proof.
  induction l as [|s l IH]; [done|]. intros _.
  destruct l as [|s' l].
  - simpl. unfold buffer. simpl. by rewrite app_nil_r, <- app_assoc.
  - change (join [space] ((s :: s' :: l) ++ [c]))
      with (s ++ [space] ++ join [space] ((s' :: l) ++ [c])).
    rewrite IH by done.
    change (buffer (s :: s' :: l)) with ((s ++ [space]) ++ buffer (s' :: l)).
    by rewrite <- !app_assoc.
Qed.

Lemma closable_trim st :
  closable st ->
  trim (current st) <> [] /\ trimStart (current st) <> [] /\
  trim (current st) ++ [space] = trimStart (current st) /\
  solid (trim (current st)).
Proof.
  intros (Y & c & Hcur & Hc). rewrite Hcur.
  rewrite trim_app_space by apply isSpace_space.
  destruct (trimStart_snoc_solid Y c Hc) as [Z HZ].
  assert (trim (Y ++ [c]) = Z ++ [c]) as Ht.
  { unfold trim. rewrite HZ. by apply trimEnd_snoc_solid. }
  rewrite Ht, trimStart_app_nonblank by (rewrite HZ; by destruct Z).
  rewrite HZ. repeat split; try by destruct Z.
  - rewrite <- HZ. apply trimStart_idem.
  - by apply trimEnd_snoc_solid.
Qed.

Lemma buffer_snoc (l : list jsstring) c : buffer (l ++ [c]) = buffer l ++ c ++ [space].
Proof. by rewrite buffer_app, buffer_single. Qed.

Lemma solid_buffer_start l z :
  l <> [] -> Forall solid l -> trimStart (buffer l ++ z) = buffer l ++ z.
Proof.
  destruct l as [|c l]; [done|]. intros _ Hall.
  apply Forall_cons in Hall as [(Hne & Hs & _) _].
  change (buffer (c :: l)) with ((c ++ [space]) ++ buffer l).
  rewrite <- !app_assoc. by apply trimStart_fixed_app.
Qed.

Lemma roundInv_step chunkSize full st s :
  roundInv full st -> closable st -> trimStart s = s ->
  roundInv (full ++ s ++ [space]) (chunkStep chunkSize st s).
Proof.
  intros (H1 & H2 & H3) Hcl Hs.
  destruct (closable_trim st Hcl) as (Ht & Hts & Htrim & Hsolid).
  assert (trimStart full <> []) as Hfull.
  { rewrite <- H1. destruct (chunks st) as [|c l] eqn:Hch.
    - done.
    - rewrite solid_buffer_start; [|done|done].
      apply Forall_cons in H2 as [(Hne & _) _].
      change (buffer (c :: l)) with ((c ++ [space]) ++ buffer l).
      by destruct c. }
  assert (current st <> [space]) as Hnsp.
  { destruct Hcl as (Y & c & -> & _). intros H.
    apply (f_equal length) in H. rewrite !length_app in H. simpl in H. lia. }
  unfold chunkStep. destruct (_ >? _); unfold roundInv; cbn [chunks current].
  - split; [|split].
    + rewrite buffer_snoc, trimStart_app_nonblank with (x := full) by done.
      rewrite <- H1. destruct (chunks st) as [|c l] eqn:Hch.
      * simpl. rewrite <- Htrim.
        rewrite <- !app_assoc. apply trimStart_fixed_app; by destruct Hsolid as (?&?&?).
      * destruct (H3 ltac:(done)) as [Hc|Hc]; [|done].
        rewrite Hc in Htrim. rewrite <- !app_assoc.
        rewrite !(solid_buffer_start (c :: l)) by done.
        rewrite (app_assoc (trim (current st)) [space]), Htrim.
        by rewrite <- !app_assoc.
    + apply Forall_app. split; [done|]. by constructor.
    + intros _. destruct s as [|a s]; [by right|]. left.
      apply trimStart_fixed_app; done.
  - split; [|split].
    + rewrite (app_assoc (buffer (chunks st))).
      rewrite trimStart_app_nonblank by (rewrite H1; done).
      rewrite H1. by rewrite trimStart_app_nonblank.
    + done.
    + intros Hne. left. destruct (H3 Hne) as [Hc|Hc]; [|done].
      apply trimStart_fixed_app; [|done].
      destruct Hcl as (Y & c & -> & _). by destruct Y.
Qed.

Lemma closable_step chunkSize st s :
  endsSentence s = true -> closable (chunkStep chunkSize st s).
Proof.
  intros Hs. apply endsSentence_snoc in Hs as (Y & c & -> & Hc).
  unfold chunkStep, closable. destruct (_ >? _); cbn [current].
  - by exists Y, c.
  - exists (current st ++ Y), c. by rewrite <- !app_assoc.
Qed.

Lemma roundInv_loop chunkSize rest : forall st full,
  Forall (fun s => trimStart s = s) rest ->
  Forall (fun s => endsSentence s = true) (removelast rest) ->
  roundInv full st -> (rest <> [] -> closable st) ->
  roundInv (full ++ buffer rest) (chunkLoop chunkSize st rest).
Proof.
  induction rest as [|s rest IH]; intros st full Hstart Hend Hinv Hcl.
  - simpl. by rewrite app_nil_r.
  - change (chunkLoop chunkSize st (s :: rest))
      with (chunkLoop chunkSize (chunkStep chunkSize st s) rest).
    change (buffer (s :: rest)) with ((s ++ [space]) ++ buffer rest).
    rewrite app_assoc. apply Forall_cons in Hstart as [Hs Hstart].
    apply IH.
    + done.
    + destruct rest; [constructor|]. by apply Forall_cons in Hend as [_ ?].
    + apply roundInv_step; [done|by apply Hcl|done].
    + intros Hne. apply closable_step.
      destruct rest; [done|]. by apply Forall_cons in Hend as [? _].
Qed.

Lemma trimStart_head x c y : trimStart x = c :: y -> isSpace c = false.
Proof.
  induction x as [|a x IH]; [done|]. simpl.
  destruct (isSpace a) eqn:Ha; [exact IH|]. by intros [= <- _].
Qed.

Lemma trim_nil_trimStart x : trim x = [] -> trimStart x = [].
Proof.
  unfold trim, trimEnd. intros H.
  destruct (trimStart x) as [|c y] eqn:Hx; [done|]. exfalso.
  apply trimStart_head in Hx.
  destruct (trimStart_snoc_solid (rev y) c Hx) as [Z HZ].
  simpl in H. rewrite HZ, rev_app_distr in H. done.
Qed.

Lemma trimEnd_join_solid l :
  l <> [] -> Forall solid l -> trimEnd (join [space] l) = join [space] l.
Proof.
  intros Hne Hall. destruct (exists_last Hne) as [init [c ->]].
  apply Forall_app in Hall as [_ Hc]. apply Forall_cons in Hc as [(Hcne & _ & Hc) _].
  destruct init as [|c0 init].
  - done.
  - rewrite join_snoc by done. rewrite trimEnd_app_nonblank; by rewrite Hc.
Qed.

Lemma roundInv_flush full st :
  roundInv full st -> join [space] (chunkFlush st) = trim full.
Proof.
  intros (H1 & H2 & H3). unfold trim. rewrite <- H1. unfold chunkFlush.
  destruct (chunks st) as [|c l] eqn:Hch.
  - simpl. fold (trim (current st)). by destruct (trim (current st)).
  - rewrite solid_buffer_start by done.
    destruct (truthy (trim (current st))) eqn:Ht.
    + rewrite join_snoc by done.
      destruct (H3 ltac:(done)) as [Hc|Hc]; [|by rewrite Hc in Ht].
      unfold trim in Ht |- *. rewrite Hc in Ht |- *.
      rewrite trimEnd_app_nonblank; [done|]. by destruct (trimEnd (current st)).
    + assert (trim (current st) = []) as Hnil by by destruct (trim (current st)).
      apply trim_nil_trimStart in Hnil.
      rewrite trimEnd_app_blank by done.
      rewrite buffer_join by done.
      rewrite trimEnd_app_space by apply isSpace_space.
      by rewrite trimEnd_join_solid.
Qed.


(** The chunks already closed play no part in the loop. *)
Lemma chunkLoop_shift chunkSize pre sentences : forall st,
  chunkLoop chunkSize {| chunks := pre ++ chunks st; current := current st |}
    sentences
  = {| chunks := pre ++ chunks (chunkLoop chunkSize st sentences);
       current := current (chunkLoop chunkSize st sentences) |}.
Proof.
  induction sentences as [|s rest IH]; intros st; [done|].
  change (chunkLoop chunkSize ?x (s :: rest))
    with (chunkLoop chunkSize (chunkStep chunkSize x s) rest).
  rewrite <- IH. f_equal. unfold chunkStep. cbn [chunks current].
  destruct (_ >? _); cbn [chunks current]; [|done]. by rewrite app_assoc.
Qed.

Lemma chunkFlush_shift pre st :
  chunkFlush {| chunks := pre ++ chunks st; current := current st |}
  = pre ++ chunkFlush st.
Proof.
  unfold chunkFlush. cbn [chunks current].
  destruct (truthy _); [by rewrite app_assoc|done].
Qed.

(** The shape of the output on every text and bound: an empty chunk when
    the first sentence is longer than the bound, then chunks that, joined
    by single spaces, are the normalized sentence sequence of the text. *)
Theorem chunkText_roundtrip_body (text : jsstring) (chunkSize : Z) s rest :
  splitSentences text = s :: rest ->
  exists body,
    chunkText text chunkSize
    = (if Z.of_nat (length s) >? chunkSize then [[]] else []) ++ body /\
    join [space] body = normalizedSentences text.
Proof.
  intros Hsplit.
  pose proof (splitScan_tail_starts text [] false) as Hstart.
  pose proof (splitScan_ends text [] false) as Hend.
  fold (splitSentences text) in Hstart, Hend.
  unfold chunkText, chunkSentences, normalizedSentences. rewrite Hsplit in *.
  set (st1 := {| chunks := []; current := s ++ [space] |}).
  exists (chunkFlush (chunkLoop chunkSize st1 rest)). split.
  - change (chunkLoop chunkSize {| chunks := []; current := [] |} (s :: rest))
      with (chunkLoop chunkSize
              (chunkStep chunkSize {| chunks := []; current := [] |} s) rest).
    unfold chunkStep. cbn [current chunks app].
    destruct (Z.of_nat (length s) >? chunkSize).
    + exact (eq_trans
               (f_equal chunkFlush (chunkLoop_shift chunkSize [[]] rest st1))
               (chunkFlush_shift [[]] (chunkLoop chunkSize st1 rest))).
    + reflexivity.
  - rewrite (roundInv_flush ((s ++ [space]) ++ buffer rest)).
    + change ((s ++ [space]) ++ buffer rest) with (buffer (s :: rest)).
      rewrite buffer_join by done.
      by rewrite trim_app_space by apply isSpace_space.
    + apply roundInv_loop.
      * exact Hstart.
      * destruct rest; [constructor|]. by apply Forall_cons in Hend as [_ ?].
      * by repeat split.
      * intros Hne. destruct rest; [done|].
        apply Forall_cons in Hend as [Hs _].
        apply endsSentence_snoc in Hs as (Y & c & -> & Hc). by exists Y, c.
Qed.

(** When the first sentence fits the bound, joining the chunks with single
    spaces gives back the normalized sentence sequence. *)
Corollary chunkText_roundtrip (text : jsstring) (chunkSize : Z) s rest :
  splitSentences text = s :: rest ->
  Z.of_nat (length s) <= chunkSize ->
  join [space] (chunkText text chunkSize) = normalizedSentences text.
Proof.
  intros Hsplit Hfit.
  destruct (chunkText_roundtrip_body text chunkSize s rest Hsplit)
    as (body & -> & <-).
  destruct (Z.of_nat (length s) >? chunkSize) eqn:Hcmp; [|reflexivity].
  rewrite Z.gtb_ltb, Z.ltb_lt in Hcmp. lia.
Qed.

(** C1 at a text whose only sentence has 401 characters, with the default
    bound: the chunker returns the empty chunk and then the sentence, so
    joining the chunks with single spaces gives the sentence after a space,
    which is not the normalized sentence sequence. *)
Theorem chunkText_roundtrip_long_first_sentence :
  splitSentences longSentence = [longSentence] /\
  normalizedSentences longSentence = longSentence /\
  chunkText longSentence defaultChunkSize = [[]; longSentence] /\
  join [space] (chunkText longSentence defaultChunkSize) = space :: longSentence /\
  join [space] (chunkText longSentence defaultChunkSize)
    <> normalizedSentences longSentence.
Proof.
  repeat split; try (vm_compute; reflexivity).
  intros H. vm_compute in H. discriminate H.
Qed.

(** * Properties of the handlers *)

Section PipelineProperties.

Context {Embedding : Type} (sv : Services Embedding).

Implicit Types (w : World Embedding) (name text chunk : jsstring).

Lemma newEvents_app w w' new :
  events w' = events w ++ new -> newEvents w w' = new.
Proof. unfold newEvents. intros ->. by rewrite drop_app_length. Qed.

(** One turn of the indexing loop. *)
Lemma indexFrom_cons name i chunk rest w :
  indexFrom sv name i (chunk :: rest) w =
  match embeddings_create sv w embeddingModel chunk with
  | Throw e => (Throw e, logEvent (Embedded embeddingModel chunk (Throw e)) w)
  | Ok values =>
      let w1 := logEvent (Embedded embeddingModel chunk (Ok values)) w in
      let records := [chunkRecord name i chunk values] in
      match upsert_fault sv w1 name records with
      | Some e => (Throw e, logEvent (Upserted name records (Throw e)) w1)
      | None =>
          indexFrom sv name (S i) rest
            (logEvent (Upserted name records (Ok tt))
               (setVectors (storeRecords name records (vectors w1)) w1))
      end
  end.
Proof.
  simpl. unfold bind, embed, upsert.
  destruct (embeddings_create sv w embeddingModel chunk); [|reflexivity].
  destruct (upsert_fault _ _ _ _); reflexivity.
Qed.

(** The whole log of an indexing run: complete turns for the chunks done,
    then, on failure, the attempt that failed, and nothing after it. *)
Lemma indexFrom_trace name rest : forall i w,
  exists embs : list Embedding,
    match (indexFrom sv name i rest w).1 with
    | Ok _ =>
        length embs = length rest /\
        events (indexFrom sv name i rest w).2
        = events w ++ indexTrace name i (zip rest embs)
    | Throw e =>
        exists chunk attempt,
          rest !! length embs = Some chunk /\
          failedAttempt name (i + length embs) chunk e attempt /\
          events (indexFrom sv name i rest w).2
          = events w ++ indexTrace name i (zip rest embs) ++ attempt
    end.
Proof.
  induction rest as [|c rest IH]; intros i w.
  - exists []. simpl. split; [done|]. by rewrite app_nil_r.
  - rewrite indexFrom_cons.
    destruct (embeddings_create sv w embeddingModel c) as [v|e] eqn:He.
    + cbv zeta.
      destruct (upsert_fault sv _ name [chunkRecord name i c v]) as [e|] eqn:Hu.
      * exists []. cbn [fst snd length].
        exists c, [Embedded embeddingModel c (Ok v);
                   Upserted name [chunkRecord name i c v] (Throw e)].
        split; [done|].
        split; [right; exists v; rewrite Nat.add_0_r; reflexivity|].
        simpl. by rewrite <- app_assoc.
      * match goal with |- context [indexFrom sv name (S i) rest ?w2] =>
          destruct (IH (S i) w2) as [embs Hrun]; exists (v :: embs);
          destruct (indexFrom sv name (S i) rest w2) as [[u|e] w3] end;
          cbn [fst snd] in *.
        -- destruct Hrun as [Hlen Hev]. split; [simpl; congruence|].
           rewrite Hev. simpl. by rewrite <- !app_assoc.
        -- destruct Hrun as (chunk & attempt & Hk & Hat & Hev).
           exists chunk, attempt. split; [done|].
           split.
           { replace (i + length (v :: embs))%nat with (S i + length embs)%nat
               by (simpl; lia). done. }
           rewrite Hev. simpl. by rewrite <- !app_assoc.
    + exists []. cbn [fst snd length].
      exists c, [Embedded embeddingModel c (Throw e)]. split; [done|].
      split; [left; reflexivity|]. reflexivity.
Qed.

Lemma upsertsIssued_app (l1 l2 : list (Event Embedding)) :
  upsertsIssued (l1 ++ l2) = upsertsIssued l1 ++ upsertsIssued l2.
Proof. apply omap_app. Qed.

Lemma upsertsIssued_indexTrace name (indexed : list (jsstring * Embedding)) :
  forall i,
  upsertsIssued (indexTrace name i indexed)
  = imap (fun j (cv : jsstring * Embedding) =>
            (name, [chunkRecord name (i + j) cv.1 cv.2])) indexed.
Proof.
  induction indexed as [|[c v] l IH]; intros i; [done|].
  simpl. rewrite IH, Nat.add_0_r. f_equal.
  apply imap_ext. intros j x _. simpl.
  by rewrite Nat.add_succ_r.
Qed.

Lemma indexedCount_app (l1 l2 : list (Event Embedding)) :
  indexedCount (l1 ++ l2) = (indexedCount l1 + indexedCount l2)%nat.
Proof. apply sum_list_with_app. Qed.

Lemma indexedCount_indexTrace name (indexed : list (jsstring * Embedding)) :
  forall i, indexedCount (indexTrace name i indexed) = length indexed.
Proof.
  induction indexed as [|[c v] l IH]; intros i; [done|].
  simpl. unfold indexedCount in *. simpl. by rewrite IH.
Qed.

Lemma indexedCount_failedAttempt name i chunk e
  (attempt : list (Event Embedding)) :
  failedAttempt name i chunk e attempt -> indexedCount attempt = 0%nat.
Proof. by intros [->|[v ->]]. Qed.

(** Every write an indexing run asks for, also one that fails, is the
    write of the record of the chunk at that position. *)
Lemma indexFrom_upserts name rest i w j ns records :
  upsertsIssued (newEvents w (indexFrom sv name i rest w).2) !! j
  = Some (ns, records) ->
  exists chunk values,
    rest !! j = Some chunk /\ ns = name /\
    records = [chunkRecord name (i + j) chunk values].
Proof.
  destruct (indexFrom_trace name rest i w) as [embs Hrun].
  destruct (indexFrom sv name i rest w) as [[u|e] w']; cbn [fst snd] in *.
  - destruct Hrun as [Hlen Hev].
    rewrite (newEvents_app _ _ _ Hev), upsertsIssued_indexTrace.
    rewrite list_lookup_imap. intros Hj.
    destruct (zip rest embs !! j) as [[c v]|] eqn:Hz; [|done].
    simpl in Hj. injection Hj as <- <-.
    apply lookup_zip_with_Some in Hz as (c' & v' & [= -> ->] & Hc & Hv).
    by exists c', v'.
  - destruct Hrun as (chunk & attempt & Hk & Hat & Hev).
    rewrite (newEvents_app _ _ _ Hev), upsertsIssued_app, upsertsIssued_indexTrace.
    intros Hj. apply lookup_app_Some in Hj as [Hj|[Hge Hj]].
    + rewrite list_lookup_imap in Hj.
      destruct (zip rest embs !! j) as [[c v]|] eqn:Hz; [|done].
      simpl in Hj. injection Hj as <- <-.
      apply lookup_zip_with_Some in Hz as (c' & v' & [= -> ->] & Hc & Hv).
      by exists c', v'.
    + rewrite length_imap in Hge, Hj.
      assert (length (zip rest embs) = length embs) as Hlen.
      { rewrite length_zip_with. apply lookup_lt_Some in Hk. lia. }
      rewrite Hlen in Hge, Hj.
      destruct Hat as [->|[v ->]]; [done|].
      destruct (j - length embs)%nat as [|n] eqn:Hd; [|done].
      simpl in Hj. injection Hj as <- <-.
      assert (j = length embs) as -> by lia.
      by exists chunk, v.
Qed.

(** The store after an indexing run is the store before it with the
    writes that succeeded applied in order: nothing is undone. *)
Lemma indexFrom_replay name rest : forall i w,
  exists new,
    events (indexFrom sv name i rest w).2 = events w ++ new /\
    vectors (indexFrom sv name i rest w).2 = replay new (vectors w).
Proof.
  induction rest as [|c rest IH]; intros i w.
  - exists []. simpl. by rewrite app_nil_r.
  - rewrite indexFrom_cons.
    destruct (embeddings_create sv w embeddingModel c) as [v|e].
    + cbv zeta.
      destruct (upsert_fault sv _ name [chunkRecord name i c v]) as [e|] eqn:Hu.
      * exists [Embedded embeddingModel c (Ok v);
                Upserted name [chunkRecord name i c v] (Throw e)].
        split; [|reflexivity]. simpl. by rewrite <- app_assoc.
      * match goal with |- context [indexFrom sv name (S i) rest ?w2] =>
          destruct (IH (S i) w2) as (new & Hev & Hvec) end.
        exists (Embedded embeddingModel c (Ok v)
                :: Upserted name [chunkRecord name i c v] (Ok tt) :: new).
        split; [|by rewrite Hvec].
        rewrite Hev. simpl. by rewrite <- !app_assoc.
    + exists [Embedded embeddingModel c (Throw e)]. by split.
Qed.

Lemma indexFrom_vectors name rest i w :
  vectors (indexFrom sv name i rest w).2
  = replay (newEvents w (indexFrom sv name i rest w).2) (vectors w).
Proof.
  destruct (indexFrom_replay name rest i w) as (new & Hev & ->).
  by rewrite (newEvents_app _ _ _ Hev).
Qed.

Lemma js_inj s1 s2 : js s1 = js s2 -> s1 = s2.
Proof.
  unfold js. intros H.
  rewrite <- (string_of_list_ascii_of_string s1),
          <- (string_of_list_ascii_of_string s2).
  f_equal. revert H.
  generalize (list_ascii_of_string s1) (list_ascii_of_string s2).
  induction l as [|a l IH]; intros [|b l']; simpl; try done.
  intros [= Hab Hl]. f_equal; [|by apply IH].
  by rewrite <- (ascii_N_embedding a), <- (ascii_N_embedding b), Hab.
Qed.

(** Distinct ordinals print differently, so the ids of a document's
    records are distinct. *)
Lemma decimal_inj i j : decimal i = decimal j -> i = j.
Proof.
  unfold decimal. intros H. apply js_inj in H.
  apply Unsigned.to_uint_inj.
  assert (forall n, Nat.to_uint n <> Decimal.Nil) as Hnn.
  { intros [|n] Hn; [discriminate Hn|].
    pose proof (Unsigned.of_to (S n)) as Hof. rewrite Hn in Hof.
    discriminate Hof. }
  pose proof (NilZero.usu _ (Hnn i)) as Hi.
  pose proof (NilZero.usu _ (Hnn j)) as Hj.
  rewrite H in Hi. congruence.
Qed.

Lemma recordAt_storeRecords_eq ns (r : VectorRecord Embedding) v :
  recordAt (storeRecords ns [r] v) ns (vr_id r) = Some r.
Proof.
  unfold recordAt, storeRecords. rewrite lookup_insert_eq. simpl.
  apply lookup_insert_eq.
Qed.

Lemma recordAt_storeRecords_ne ns (r : VectorRecord Embedding) v id :
  id <> vr_id r -> recordAt (storeRecords ns [r] v) ns id = recordAt v ns id.
Proof.
  intros Hne. unfold recordAt, storeRecords. rewrite lookup_insert_eq. simpl.
  rewrite lookup_insert_ne by done. by destruct (v !! ns).
Qed.

Lemma replay_indexTrace_cons name i chunk (values : Embedding) rest v :
  replay (indexTrace name i ((chunk, values) :: rest)) v
  = replay (indexTrace name (S i) rest)
      (storeRecords name [chunkRecord name i chunk values] v).
Proof. reflexivity. Qed.

Lemma replay_indexTrace_other name (indexed : list (jsstring * Embedding)) :
  forall i v id,
    (forall j, (i <= j)%nat -> id <> name ++ js "-" ++ decimal j) ->
    recordAt (replay (indexTrace name i indexed) v) name id = recordAt v name id.
Proof.
  induction indexed as [|[c x] l IH]; intros i v id Hid; [done|].
  rewrite replay_indexTrace_cons.
  rewrite IH by (intros j Hj; apply Hid; lia).
  apply recordAt_storeRecords_ne, Hid. lia.
Qed.

(** After the writes of an indexing run, the record of each chunk is the
    one stored under the id of its ordinal. *)
Lemma replay_indexTrace_lookup name (indexed : list (jsstring * Embedding)) :
  forall i v j chunk values,
    indexed !! j = Some (chunk, values) ->
    recordAt (replay (indexTrace name i indexed) v) name
      (name ++ js "-" ++ decimal (i + j))
    = Some (chunkRecord name (i + j) chunk values).
Proof.
  induction indexed as [|[c x] l IH]; intros i v j chunk values Hj; [done|].
  rewrite replay_indexTrace_cons.
  destruct j as [|j].
  - injection Hj as -> ->. rewrite Nat.add_0_r.
    rewrite replay_indexTrace_other.
    + apply (recordAt_storeRecords_eq name (chunkRecord name i chunk values)).
    + intros j Hj Heq. apply app_inv_head, app_inv_head, decimal_inj in Heq. lia.
  - rewrite Nat.add_succ_r. apply (IH (S i)). exact Hj.
Qed.

(** The handler, by cases. *)
Lemma upload_cases name text w :
  upload sv name text w =
  if truthy (trim text) then
    match indexChunks sv name (chunkText text defaultChunkSize) w with
    | (Ok _, w') =>
        (uploadOk name (length (chunkText text defaultChunkSize)), w')
    | (Throw e, w') => (errorResponse e, w')
    end
  else (noTextResponse, w).
Proof.
  unfold upload, tryCatch. destruct (truthy (trim text)); [|reflexivity].
  cbn [negb]. unfold bind.
  by destruct (indexChunks sv name (chunkText text defaultChunkSize) w) as [[u|e] w'].
Qed.

(** C4.  When indexing succeeds, its events are, chunk after chunk in
    ordinal order, one embedding call for the chunk's text followed by one
    upsert into the namespace named by the document; the upsert for
    ordinal [i] carries exactly one record, with id
    ["{documentId}-{i}"], the embedding just obtained, and metadata made
    of the document identity, the ordinal, the line range and the chunk
    text; and afterwards the namespace holds, under each of these ids, the
    record of that ordinal. *)
Theorem indexChunks_upserts_in_order name (chunkList : list jsstring) w :
  (indexChunks sv name chunkList w).1 = Ok tt ->
  exists embs : list Embedding,
    length embs = length chunkList /\
    newEvents w (indexChunks sv name chunkList w).2
    = indexTrace name 0 (zip chunkList embs) /\
    upsertsIssued (newEvents w (indexChunks sv name chunkList w).2)
    = imap (fun i (cv : jsstring * Embedding) =>
              (name,
               [ {| vr_id := name ++ js "-" ++ decimal i;
                    vr_values := cv.2;
                    vr_metadata :=
                      {| md_file := name;
                         md_chunkIndex := Z.of_nat i;
                         md_lineStart := Z.of_nat i * 15 + 1;
                         md_lineEnd := (Z.of_nat i + 1) * 15;
                         md_text := cv.1 |} |} ]))
        (zip chunkList embs) /\
    forall (i : nat) chunk values,
      zip chunkList embs !! i = Some (chunk, values) ->
      recordAt (vectors (indexChunks sv name chunkList w).2) name
        (name ++ js "-" ++ decimal i)
      = Some (chunkRecord name i chunk values).
Proof.
  unfold indexChunks. intros Hok.
  pose proof (indexFrom_vectors name chunkList 0 w) as Hvec.
  destruct (indexFrom_trace name chunkList 0 w) as [embs Hrun].
  rewrite Hok in Hrun. destruct Hrun as [Hlen Hev].
  exists embs. split; [done|].
  rewrite (newEvents_app _ _ _ Hev) in Hvec |- *. split; [done|].
  split; [by rewrite upsertsIssued_indexTrace|].
  intros i chunk values Hi. rewrite Hvec.
  by apply (replay_indexTrace_lookup name _ 0).
Qed.

(** C5, amended.  When [/upload] answers with status 500, indexing stopped
    at the first call that failed: the log holds the complete turns of the
    [k] chunks before it, then the failed attempt on chunk [k], and no
    event for any later chunk; the store is the store before the upload
    with the [k] writes applied, none undone; and the body of the response
    is the error message alone. *)
Theorem upload_failure_aborts name text w :
  status (upload sv name text w).1 = 500 ->
  exists (e : Error) (k : nat) chunk (embs : list Embedding) attempt,
    (upload sv name text w).1
    = {| status := 500; body := JObj [(js "error", JStr e)] |} /\
    chunkText text defaultChunkSize !! k = Some chunk /\
    length embs = k /\
    failedAttempt name k chunk e attempt /\
    newEvents w (upload sv name text w).2
    = indexTrace name 0 (zip (chunkText text defaultChunkSize) embs) ++ attempt /\
    indexedCount (newEvents w (upload sv name text w).2) = k /\
    vectors (upload sv name text w).2
    = replay (indexTrace name 0 (zip (chunkText text defaultChunkSize) embs))
        (vectors w).
Proof.
  rewrite upload_cases. destruct (truthy (trim text)); [|discriminate].
  unfold indexChunks.
  pose proof (indexFrom_vectors name (chunkText text defaultChunkSize) 0 w)
    as Hvec.
  destruct (indexFrom_trace name (chunkText text defaultChunkSize) 0 w)
    as [embs Hrun].
  destruct (indexFrom sv name 0 (chunkText text defaultChunkSize) w)
    as [[u|e] w']; cbn [fst snd] in *; [discriminate|].
  intros _. destruct Hrun as (chunk & attempt & Hk & Hat & Hev).
  exists e, (length embs), chunk, embs, attempt.
  rewrite (newEvents_app _ _ _ Hev) in Hvec |- *.
  split; [done|]. split; [done|]. split; [done|]. split; [done|].
  split; [done|]. split.
  - rewrite indexedCount_app, indexedCount_indexTrace.
    rewrite (indexedCount_failedAttempt _ _ _ _ _ Hat), length_zip_with.
    apply lookup_lt_Some in Hk. lia.
  - rewrite Hvec. unfold replay. rewrite foldl_app.
    by destruct Hat as [->|[v ->]].
Qed.

(** C8.  Whatever the document, the record that [/upload] asks the store
    to write for chunk ordinal [i] has [lineStart = 15 i + 1] and
    [lineEnd = 15 (i + 1)]. *)
Theorem upload_line_ranges name text w (i : nat) ns records :
  upsertsIssued (newEvents w (upload sv name text w).2) !! i
  = Some (ns, records) ->
  exists r : VectorRecord Embedding,
    records = [r] /\
    md_chunkIndex (vr_metadata r) = Z.of_nat i /\
    md_lineStart (vr_metadata r) = 15 * Z.of_nat i + 1 /\
    md_lineEnd (vr_metadata r) = 15 * (Z.of_nat i + 1).
Proof.
  rewrite upload_cases. destruct (truthy (trim text)).
  - intros Hi.
    assert (upsertsIssued
              (newEvents w (indexChunks sv name
                              (chunkText text defaultChunkSize) w).2) !! i
            = Some (ns, records)) as Hrun.
    { by destruct (indexChunks sv name _ w) as [[u|e] w']. }
    apply indexFrom_upserts in Hrun as (chunk & values & _ & _ & ->).
    eexists. split; [reflexivity|]. cbn. lia.
  - cbn [snd]. unfold newEvents. rewrite drop_all. done.
Qed.

(** One turn of the sweep over the namespaces. *)
Lemma collectMatches_cons vector ns rest (allMatches : list Match) w :
  collectMatches sv vector (ns :: rest) allMatches w =
  match query_matches sv w ns vector topK true with
  | Throw e => (Throw e, logEvent (Queried ns vector topK true (Throw e)) w)
  | Ok a =>
      collectMatches sv vector rest
        (allMatches ++ List.map (toMatch ns) (default [] a))
        (logEvent (Queried ns vector topK true (Ok a)) w)
  end.
Proof.
  simpl. unfold bind, query.
  destruct (query_matches sv w ns vector topK true) as [[[|m ms]|]|e];
    try reflexivity; simpl; by rewrite app_nil_r.
Qed.

Lemma collectMatches_trace vector namespaces : forall (allMatches : list Match) w,
  exists answers : list (option (list Hit)),
    match (collectMatches sv vector namespaces allMatches w).1 with
    | Ok pool =>
        length answers = length namespaces /\
        events (collectMatches sv vector namespaces allMatches w).2
        = events w ++ queryTrace vector namespaces answers /\
        pool = allMatches ++ pooled namespaces answers
    | Throw e =>
        exists ns,
          namespaces !! length answers = Some ns /\
          events (collectMatches sv vector namespaces allMatches w).2
          = events w ++ queryTrace vector namespaces answers
            ++ [Queried ns vector topK true (Throw e)]
    end.
Proof.
  induction namespaces as [|ns rest IH]; intros acc w.
  - exists []. simpl. by rewrite !app_nil_r.
  - rewrite collectMatches_cons.
    destruct (query_matches sv w ns vector topK true) as [a|e].
    + match goal with |- context [collectMatches sv vector rest ?acc' ?w1] =>
        destruct (IH acc' w1) as [answers Hrun]; exists (a :: answers);
        destruct (collectMatches sv vector rest acc' w1) as [[pool|e] w2] end;
        cbn [fst snd] in *.
      * destruct Hrun as (Hlen & Hev & ->). split; [simpl; congruence|].
        split; [rewrite Hev; simpl; by rewrite <- !app_assoc|].
        unfold pooled. simpl. by rewrite <- !app_assoc.
      * destruct Hrun as (ns' & Hk & Hev). exists ns'. split; [done|].
        rewrite Hev. simpl. by rewrite <- !app_assoc.
    + exists []. cbn [fst snd length]. exists ns. split; [done|]. reflexivity.
Qed.

(** The retriever, by cases. *)
Lemma retrieve_cases q w :
  retrieve sv q w =
  match embeddings_create sv w embeddingModel q with
  | Throw e => (Throw e, logEvent (Embedded embeddingModel q (Throw e)) w)
  | Ok vector =>
      let w1 := logEvent (Embedded embeddingModel q (Ok vector)) w in
      match listNamespaces sv w1 with
      | Throw e => (Throw e, logEvent (Listed (Throw e)) w1)
      | Ok namespaces =>
          collectMatches sv vector (default [] namespaces) []
            (logEvent (Listed (Ok namespaces)) w1)
      end
  end.
Proof.
  unfold retrieve, bind, embed, listAll.
  destruct (embeddings_create sv w embeddingModel q); [|reflexivity].
  by destruct (listNamespaces sv _).
Qed.

(** C6.  When retrieval returns a pool, its events are the embedding of
    the query, the enumeration of the namespaces and then, in enumeration
    order, one query per namespace, against that namespace, with
    [topK = 3] and metadata; the pool is the concatenation, in the same
    order, of what each query returned, each list kept in the order the
    store ranked it.  When retrieval fails, the last event is the call
    that failed. *)
Theorem retrieve_pool q w :
  match (retrieve sv q w).1 with
  | Ok pool =>
      exists (vector : Embedding) (namespaces : option (list jsstring))
             (answers : list (option (list Hit))),
        length answers = length (default [] namespaces) /\
        newEvents w (retrieve sv q w).2
        = Embedded embeddingModel q (Ok vector)
          :: Listed (Ok namespaces)
          :: zip_with (fun ns a => Queried ns vector 3 true (Ok a))
               (default [] namespaces) answers /\
        pool = concat (zip_with
                         (fun ns a => List.map (toMatch ns) (default [] a))
                         (default [] namespaces) answers)
  | Throw e =>
      exists ev, last (newEvents w (retrieve sv q w).2) = Some ev /\
                 failure ev = Some e
  end.
Proof.
  rewrite retrieve_cases.
  destruct (embeddings_create sv w embeddingModel q) as [vector|e].
  - cbv zeta. destruct (listNamespaces sv _) as [namespaces|e].
    + match goal with |- context [collectMatches sv vector ?nss [] ?w2] =>
        destruct (collectMatches_trace vector nss [] w2) as [answers Hrun];
        destruct (collectMatches sv vector nss [] w2) as [[pool|e] w3] end;
        cbn [fst snd] in *.
      * destruct Hrun as (Hlen & Hev & ->).
        exists vector, namespaces, answers. split; [done|]. split; [|done].
        apply newEvents_app. rewrite Hev. simpl. by rewrite <- !app_assoc.
      * destruct Hrun as (ns & Hk & Hev).
        exists (Queried ns vector topK true (Throw e)). split; [|reflexivity].
        rewrite (newEvents_app w w3
                   ([Embedded embeddingModel q (Ok vector); Listed (Ok namespaces)]
                    ++ queryTrace vector (default [] namespaces) answers
                    ++ [Queried ns vector topK true (Throw e)])).
        -- rewrite !app_assoc. apply last_snoc.
        -- rewrite Hev. simpl. by rewrite <- !app_assoc.
    + cbn [fst snd]. exists (Listed (Throw e)). split; [|reflexivity].
      rewrite (newEvents_app w _
                 ([Embedded embeddingModel q (Ok vector)] ++ [Listed (Throw e)])).
      * apply last_snoc.
      * simpl. by rewrite <- !app_assoc.
  - cbn [fst snd]. exists (Embedded embeddingModel q (Throw e)).
    split; [|reflexivity].
    rewrite (newEvents_app w _ ([] ++ [Embedded embeddingModel q (Throw e)])).
    + apply last_snoc.
    + reflexivity.
Qed.

Lemma queryTrace_no_completion vector namespaces answers :
  Forall (fun ev : Event Embedding => isCompletion ev = false)
    (queryTrace vector namespaces answers).
Proof.
  unfold queryTrace. revert answers.
  induction namespaces as [|ns rest IH]; intros [|a answers]; simpl;
    try constructor; [done|apply IH].
Qed.

(** Retrieval never calls the generation gateway. *)
Lemma retrieve_no_completion q w :
  exists new,
    events (retrieve sv q w).2 = events w ++ new /\
    Forall (fun ev => isCompletion ev = false) new.
Proof.
  rewrite retrieve_cases.
  destruct (embeddings_create sv w embeddingModel q) as [vector|e].
  - cbv zeta. destruct (listNamespaces sv _) as [namespaces|e].
    + match goal with |- context [collectMatches sv vector ?nss [] ?w2] =>
        destruct (collectMatches_trace vector nss [] w2) as [answers Hrun];
        destruct (collectMatches sv vector nss [] w2) as [[pool|e] w3] end;
        cbn [fst snd] in *.
      * destruct Hrun as (Hlen & Hev & ->).
        exists ([Embedded embeddingModel q (Ok vector); Listed (Ok namespaces)]
                ++ queryTrace vector (default [] namespaces) answers).
        split; [rewrite Hev; simpl; by rewrite <- !app_assoc|].
        apply Forall_app. split; [by repeat constructor|].
        apply queryTrace_no_completion.
      * destruct Hrun as (ns & Hk & Hev).
        exists ([Embedded embeddingModel q (Ok vector); Listed (Ok namespaces)]
                ++ queryTrace vector (default [] namespaces) answers
                ++ [Queried ns vector topK true (Throw e)]).
        split; [rewrite Hev; simpl; by rewrite <- !app_assoc|].
        apply Forall_app. split; [by repeat constructor|].
        apply Forall_app. split; [apply queryTrace_no_completion|].
        by repeat constructor.
    + eexists [_; _]. split; [simpl; by rewrite <- !app_assoc|].
      by repeat constructor.
  - eexists [_]. split; [reflexivity|]. by repeat constructor.
Qed.

(** The query handler once retrieval has returned. *)
Lemma search_after_retrieve q (allMatches : list Match) w w1 :
  truthy (trim q) = true ->
  retrieve sv q w = (Ok allMatches, w1) ->
  search sv (Some q) w = tryCatch (synthesize sv q allMatches) respond500 w1.
Proof.
  intros Hq Hret. unfold search, tryCatch, bind. by rewrite Hq, Hret.
Qed.

(** C7.  A query whose retrieval returns no match, as happens when the
    store enumerates no namespace, is answered with status 200, the fixed
    not-found answer and no sources, in the world retrieval left: nothing
    is called after retrieval, and no event of the run is a call to the
    generation gateway. *)
Theorem search_no_match_not_found q w :
  truthy (trim q) = true ->
  (forall w1, retrieve sv q w = (Ok [], w1) ->
     search sv (Some q) w
     = ({| status := 200;
           body := JObj [(js "answer",
                          JStr (js "I could not find that information in your documents."));
                         (js "sources", JArr [])] |}, w1) /\
     Forall (fun ev => isCompletion ev = false) (newEvents w w1)) /\
  (forall vector namespaces,
     embeddings_create sv w embeddingModel q = Ok vector ->
     listNamespaces sv (logEvent (Embedded embeddingModel q (Ok vector)) w)
     = Ok namespaces ->
     default [] namespaces = [] ->
     (retrieve sv q w).1 = Ok []).
Proof.
  intros Hq. split.
  - intros w1 Hret. split.
    + by rewrite (search_after_retrieve q [] w w1 Hq Hret).
    + destruct (retrieve_no_completion q w) as (new & Hev & Hnew).
      rewrite Hret in Hev. cbn [snd] in Hev.
      by rewrite (newEvents_app _ _ _ Hev).
  - intros vector namespaces He Hl Hnone. rewrite retrieve_cases, He.
    cbv zeta. by rewrite Hl, Hnone.
Qed.

(** C9, amended.  [/delete] asks the store once to clear the namespace
    named by the file.  If the store raises, the response is status 500
    with the store's message and nothing has changed; the handler turns no
    error into a success.  If the store performs the call, the namespace
    holds no record afterwards and the other namespaces are untouched, and
    the response is the success message unless the stored file exists and
    removing it raises. *)
Theorem deleteFile_outcome filename w :
  match deleteAll_fault sv w filename with
  | Some e =>
      deleteFile sv filename w
      = ({| status := 500; body := JObj [(js "error", JStr e)] |},
         logEvent (DeletedAll filename (Throw e)) w)
  | None =>
      let w1 := logEvent (DeletedAll filename (Ok tt))
                  (setVectors (delete filename (vectors w)) w) in
      vectors (deleteFile sv filename w).2 !! filename = None /\
      (forall ns, ns <> filename ->
         vectors (deleteFile sv filename w).2 !! ns = vectors w !! ns) /\
      (deleteFile sv filename w).1
      = (if bool_decide (filename ∈ uploads w) then
           match unlink_fault sv w1 filename with
           | Some e => {| status := 500; body := JObj [(js "error", JStr e)] |}
           | None => deletedResponse filename
           end
         else deletedResponse filename) /\
      newEvents w (deleteFile sv filename w).2
      = DeletedAll filename (Ok tt)
        :: (if bool_decide (filename ∈ uploads w) then
              [Unlinked filename
                 match unlink_fault sv w1 filename with
                 | Some e => Throw e
                 | None => Ok tt
                 end]
            else [])
  end.
Proof.
  unfold deleteFile, tryCatch, bind, deleteAll, existsSync, unlink.
  destruct (deleteAll_fault sv w filename) as [e|]; [reflexivity|].
  cbv zeta. cbn [uploads logEvent setVectors].
  destruct (bool_decide (filename ∈ uploads w)).
  - destruct (unlink_fault sv _ filename) as [e|];
      cbn [fst snd vectors logEvent setVectors setUploads].
    + split; [apply lookup_delete_eq|]. split; [|split; [done|]].
      * intros ns Hns. by apply lookup_delete_ne.
      * apply newEvents_app. unfold respond500, ret.
        cbn [snd events logEvent setVectors setUploads].
        by rewrite <- app_assoc.
    + split; [apply lookup_delete_eq|]. split; [|split; [done|]].
      * intros ns Hns. by apply lookup_delete_ne.
      * apply newEvents_app. unfold respond500, ret.
        cbn [snd events logEvent setVectors setUploads].
        by rewrite <- app_assoc.
  - cbn [fst snd vectors]. split; [apply lookup_delete_eq|].
    split; [|split; [done|]].
    + intros ns Hns. by apply lookup_delete_ne.
    + by apply newEvents_app.
Qed.

End PipelineProperties.

(** Witness for C4: two chunks indexed into the empty store. *)
Lemma indexChunks_upserts_in_order_witness :
  exists embs : list (list Q),
    length embs = length [js "One."; js "Two."] /\
    newEvents emptyWorld
      (indexChunks memoryStore (js "a.txt") [js "One."; js "Two."] emptyWorld).2
    = indexTrace (js "a.txt") 0 (zip [js "One."; js "Two."] embs) /\
    upsertsIssued
      (newEvents emptyWorld
         (indexChunks memoryStore (js "a.txt") [js "One."; js "Two."] emptyWorld).2)
    = imap (fun i (cv : jsstring * list Q) =>
              (js "a.txt",
               [ {| vr_id := js "a.txt" ++ js "-" ++ decimal i;
                    vr_values := cv.2;
                    vr_metadata :=
                      {| md_file := js "a.txt";
                         md_chunkIndex := Z.of_nat i;
                         md_lineStart := Z.of_nat i * 15 + 1;
                         md_lineEnd := (Z.of_nat i + 1) * 15;
                         md_text := cv.1 |} |} ]))
        (zip [js "One."; js "Two."] embs) /\
    forall (i : nat) chunk values,
      zip [js "One."; js "Two."] embs !! i = Some (chunk, values) ->
      recordAt
        (vectors (indexChunks memoryStore (js "a.txt") [js "One."; js "Two."]
                    emptyWorld).2)
        (js "a.txt") (js "a.txt" ++ js "-" ++ decimal i)
      = Some (chunkRecord (js "a.txt") i chunk values).
Proof.
  apply (indexChunks_upserts_in_order memoryStore (js "a.txt")
           [js "One."; js "Two."] emptyWorld).
  reflexivity.
Defined.

(** C5, as stated, fails: no reading of the response gives the number of
    chunks indexed before the failure, since a failure before the first
    chunk and a failure after it are answered alike. *)
Lemma upload_error_hides_count :
  ~ exists count : Response -> nat,
      forall (sv : Services (list Q)) name text w,
        status (upload sv name text w).1 = 500 ->
        count (upload sv name text w).1
        = indexedCount (newEvents w (upload sv name text w).2).
Proof.
  intros [count Hcount].
  pose proof (Hcount (quotaAfter 0) (js "a.txt") twoLongSentences emptyWorld) as H0.
  pose proof (Hcount (quotaAfter 1) (js "a.txt") twoLongSentences emptyWorld) as H1.
  vm_compute in H0, H1.
  specialize (H0 eq_refl). specialize (H1 eq_refl). congruence.
Qed.

(** Witness for C5: the gateway fails on the second of two chunks. *)
Lemma upload_failure_aborts_witness :
  exists (e : Error) (k : nat) chunk (embs : list (list Q)) attempt,
    (upload (quotaAfter 1) (js "a.txt") twoLongSentences emptyWorld).1
    = {| status := 500; body := JObj [(js "error", JStr e)] |} /\
    chunkText twoLongSentences defaultChunkSize !! k = Some chunk /\
    length embs = k /\
    failedAttempt (js "a.txt") k chunk e attempt /\
    newEvents emptyWorld
      (upload (quotaAfter 1) (js "a.txt") twoLongSentences emptyWorld).2
    = indexTrace (js "a.txt") 0
        (zip (chunkText twoLongSentences defaultChunkSize) embs) ++ attempt /\
    indexedCount
      (newEvents emptyWorld
         (upload (quotaAfter 1) (js "a.txt") twoLongSentences emptyWorld).2) = k /\
    vectors (upload (quotaAfter 1) (js "a.txt") twoLongSentences emptyWorld).2
    = replay
        (indexTrace (js "a.txt") 0
           (zip (chunkText twoLongSentences defaultChunkSize) embs))
        (vectors emptyWorld).
Proof.
  apply (upload_failure_aborts (quotaAfter 1) (js "a.txt") twoLongSentences
           emptyWorld).
  vm_compute. reflexivity.
Defined.

(** Witness for C8: the second write of a two-chunk upload. *)
Lemma upload_line_ranges_witness :
  exists r : VectorRecord (list Q),
    [chunkRecord (js "a.txt") 1 (repeat 98%N 300 ++ js ".") [301 # 1]] = [r] /\
    md_chunkIndex (vr_metadata r) = Z.of_nat 1 /\
    md_lineStart (vr_metadata r) = 15 * Z.of_nat 1 + 1 /\
    md_lineEnd (vr_metadata r) = 15 * (Z.of_nat 1 + 1).
Proof.
  apply (upload_line_ranges memoryStore (js "a.txt") twoLongSentences
           emptyWorld 1 (js "a.txt")).
  vm_compute. reflexivity.
Defined.

(** Witness for C7: a query against the empty store. *)
Lemma search_no_match_not_found_witness :
  (forall w1, retrieve memoryStore (js "cats?") emptyWorld = (Ok [], w1) ->
     search memoryStore (Some (js "cats?")) emptyWorld
     = ({| status := 200;
           body := JObj [(js "answer",
                          JStr (js "I could not find that information in your documents."));
                         (js "sources", JArr [])] |}, w1) /\
     Forall (fun ev => isCompletion ev = false) (newEvents emptyWorld w1)) /\
  (forall vector namespaces,
     embeddings_create memoryStore emptyWorld embeddingModel (js "cats?")
     = Ok vector ->
     listNamespaces memoryStore
       (logEvent (Embedded embeddingModel (js "cats?") (Ok vector)) emptyWorld)
     = Ok namespaces ->
     default [] namespaces = [] ->
     (retrieve memoryStore (js "cats?") emptyWorld).1 = Ok []).
Proof.
  apply (search_no_match_not_found memoryStore (js "cats?") emptyWorld).
  reflexivity.
Defined.

(** C9, as stated, fails: against a store that raises on a namespace it
    does not know, deleting an unknown document is answered with status
    500. *)
Lemma delete_unknown_namespace_reported :
  ~ forall (sv : Services (list Q)) filename w,
      vectors w !! filename = None ->
      status (deleteFile sv filename w).1 = 200.
Proof.
  intros H. specialize (H strictStore (js "a.txt") emptyWorld eq_refl).
  vm_compute in H. discriminate H.
Qed.

(** Runs of the handlers on the stores. *)

Example search_after_upload :
  (search memoryStore (Some (js "Two?"))
     (upload memoryStore (js "a.txt") (js "One. Two.") emptyWorld).2).1
  = {| status := 200;
       body := JObj [(js "answer", JStr (js "Forty-two."));
                     (js "sources",
                      JArr [JObj [(js "file", JStr (js "a.txt"));
                                  (js "lineStart", JNum 1);
                                  (js "lineEnd", JNum 15);
                                  (js "text", JStr (js "One. Two."))]])] |}.
Proof. vm_compute. reflexivity. Qed.

Example delete_twice_memoryStore :
  let w1 := (upload memoryStore (js "a.txt") (js "One. Two.") emptyWorld).2 in
  let w2 := (deleteFile memoryStore (js "a.txt") w1).2 in
  status (deleteFile memoryStore (js "a.txt") w1).1 = 200 /\
  vectors w2 !! js "a.txt" = None /\
  status (deleteFile memoryStore (js "a.txt") w2).1 = 200.
Proof. vm_compute. repeat split. Qed.

Example delete_twice_strictStore :
  let w1 := (upload strictStore (js "a.txt") (js "One. Two.") emptyWorld).2 in
  let w2 := (deleteFile strictStore (js "a.txt") w1).2 in
  status (deleteFile strictStore (js "a.txt") w1).1 = 200 /\
  vectors w2 !! js "a.txt" = None /\
  (deleteFile strictStore (js "a.txt") w2).1
  = {| status := 500;
       body := JObj [(js "error", JStr (js "Namespace not found"))] |}.
Proof. vm_compute. repeat split. Qed.

(** * Further properties of the chunker *)

Lemma trimEnd_idem y : trimEnd (trimEnd y) = trimEnd y.
Proof. unfold trimEnd. by rewrite rev_involutive, trimStart_idem. Qed.

(** A trimmed string that is not empty is solid. *)
Lemma solid_trim x : trim x <> [] -> solid (trim x).
Proof.
  intros Hne. split; [done|]. split; [|apply trimEnd_idem].
  unfold trim in *. destruct (trimStart x) as [|c y] eqn:Hx; [done|].
  apply trimStart_head in Hx.
  destruct (trimStart_snoc_solid (rev y) c Hx) as [Z HZ].
  unfold trimEnd. simpl. rewrite HZ, rev_app_distr. simpl. by rewrite Hx.
Qed.

Lemma roundInv_flush_solid full st :
  roundInv full st -> Forall solid (chunkFlush st).
Proof.
  intros (_ & H2 & _). unfold chunkFlush.
  destruct (truthy (trim (current st))) eqn:Ht; [|done].
  apply Forall_app. split; [done|]. constructor; [|constructor].
  apply solid_trim. by destruct (trim (current st)).
Qed.

(** The output, on every text and bound: an empty chunk when the first
    sentence is longer than the bound, then the flush of a state that
    satisfies the invariant for the whole text. *)
Lemma chunkText_decompose (text : jsstring) (chunkSize : Z) s rest :
  splitSentences text = s :: rest ->
  exists st,
    roundInv (buffer (s :: rest)) st /\
    chunkText text chunkSize
    = (if Z.of_nat (length s) >? chunkSize then [[]] else []) ++ chunkFlush st.
Proof.
  intros Hsplit.
  pose proof (splitScan_tail_starts text [] false) as Hstart.
  pose proof (splitScan_ends text [] false) as Hend.
  fold (splitSentences text) in Hstart, Hend.
  unfold chunkText, chunkSentences. rewrite Hsplit in *.
  set (st1 := {| chunks := []; current := s ++ [space] |}).
  exists (chunkLoop chunkSize st1 rest). split.
  - change (buffer (s :: rest)) with ((s ++ [space]) ++ buffer rest).
    apply roundInv_loop.
    + exact Hstart.
    + destruct rest; [constructor|]. by apply Forall_cons in Hend as [_ ?].
    + by repeat split.
    + intros Hne. destruct rest; [done|].
      apply Forall_cons in Hend as [Hs _].
      apply endsSentence_snoc in Hs as (Y & c & -> & Hc). by exists Y, c.
  - change (chunkLoop chunkSize {| chunks := []; current := [] |} (s :: rest))
      with (chunkLoop chunkSize
              (chunkStep chunkSize {| chunks := []; current := [] |} s) rest).
    unfold chunkStep. cbn [current chunks app].
    destruct (Z.of_nat (length s) >? chunkSize).
    + exact (eq_trans
               (f_equal chunkFlush (chunkLoop_shift chunkSize [[]] rest st1))
               (chunkFlush_shift [[]] (chunkLoop chunkSize st1 rest))).
    + reflexivity.
Qed.

Lemma splitSentences_cons text : exists s rest, splitSentences text = s :: rest.
Proof.
  pose proof (splitScan_nonempty text [] false) as H.
  fold (splitSentences text) in H.
  destruct (splitSentences text) as [|s rest]; [done|]. by exists s, rest.
Qed.

(** X1.  Every chunk is its own trim, and only chunk 0 can be empty, which it
    is only when the first sentence is longer than the bound. *)
Theorem chunkText_chunks_trimmed (text : jsstring) (chunkSize : Z)
  (i : nat) (c : jsstring) :
  chunkText text chunkSize !! i = Some c ->
  trim c = c /\
  (c = [] ->
   i = 0%nat /\
   exists s rest, splitSentences text = s :: rest /\
                  Z.of_nat (length s) > chunkSize).
Proof.
  destruct (splitSentences_cons text) as (s & rest & Hsplit).
  destruct (chunkText_decompose text chunkSize s rest Hsplit) as (st & Hinv & ->).
  apply roundInv_flush_solid in Hinv.
  destruct (Z.of_nat (length s) >? chunkSize) eqn:Hcmp.
  - destruct i as [|i]; simpl.
    + intros [= <-]. split; [done|]. intros _. split; [done|].
      exists s, rest. split; [done|]. rewrite Z.gtb_ltb, Z.ltb_lt in Hcmp. lia.
    + intros Hi. apply list_elem_of_lookup_2 in Hi.
      rewrite Forall_forall in Hinv. destruct (Hinv c Hi) as (Hne & Hs & He).
      split; [|done]. unfold trim. by rewrite Hs.
  - simpl. intros Hi. apply list_elem_of_lookup_2 in Hi.
    rewrite Forall_forall in Hinv. destruct (Hinv c Hi) as (Hne & Hs & He).
    split; [|done]. unfold trim. by rewrite Hs.
Qed.

(** A run that meets the hypotheses of [chunkText_chunks_trimmed]. *)
Lemma chunkText_chunks_trimmed_witness :
  trim (js "A dog ran.") = js "A dog ran." /\
  (js "A dog ran." = [] ->
   1%nat = 0%nat /\
   exists s rest, splitSentences scenario = s :: rest /\
                  Z.of_nat (length s) > 20).
Proof.
  apply (chunkText_chunks_trimmed scenario 20 1 (js "A dog ran.")).
  reflexivity.
Defined.

(** ** Nothing but white space is added or removed *)

Lemma inked_app x y : inked (x ++ y) = inked x ++ inked y.
Proof. apply List.filter_app. Qed.

Lemma inked_trimStart s : inked (trimStart s) = inked s.
Proof.
  induction s as [|c s IH]; [done|]. cbn [trimStart].
  destruct (isSpace c) eqn:Hc; [|done].
  rewrite IH. unfold inked. cbn [List.filter]. by rewrite Hc.
Qed.

Lemma inked_rev s : inked (rev s) = rev (inked s).
Proof.
  induction s as [|c s IH]; [done|]. cbn [rev]. rewrite inked_app, IH.
  unfold inked. cbn [List.filter].
  destruct (negb (isSpace c)); cbn [rev]; [done|by rewrite app_nil_r].
Qed.

Lemma inked_trim s : inked (trim s) = inked s.
Proof.
  unfold trim, trimEnd.
  by rewrite inked_rev, inked_trimStart, inked_rev, rev_involutive, inked_trimStart.
Qed.

Lemma inked_join l : inked (join [space] l) = inked (concat l).
Proof.
  induction l as [|s l IH]; [done|]. destruct l as [|s' l].
  - simpl. by rewrite app_nil_r.
  - change (join [space] (s :: s' :: l))
      with (s ++ [space] ++ join [space] (s' :: l)).
    change (concat (s :: s' :: l)) with (s ++ concat (s' :: l)).
    by rewrite !inked_app, IH.
Qed.

Lemma inked_splitScan text : forall cur sk,
  inked (concat (splitScan cur sk text)) = inked (cur ++ text).
Proof.
  induction text as [|c text IH]; intros cur sk; simpl.
  - by rewrite app_nil_r.
  - assert (isSpace c = true -> inked [c] = []) as Hdrop.
    { intros Hc. unfold inked. cbn [List.filter]. by rewrite Hc. }
    destruct (isSpace c) eqn:Hc.
    + assert (inked (cur ++ c :: text) = inked (cur ++ text)) as ->.
      { change (c :: text) with ([c] ++ text).
        by rewrite !inked_app, Hdrop. }
      destruct sk; [apply IH|].
      destruct (endsSentence cur).
      * cbn [concat]. rewrite inked_app, IH. cbn [app]. by rewrite inked_app.
      * rewrite IH, <- app_assoc. by rewrite !inked_app, Hdrop.
    + by rewrite IH, <- app_assoc.
Qed.

Lemma inked_chunkText (text : jsstring) (chunkSize : Z) :
  inked (concat (chunkText text chunkSize)) = inked text.
Proof.
  destruct (splitSentences_cons text) as (s & rest & Hsplit).
  destruct (chunkText_roundtrip_body text chunkSize s rest Hsplit)
    as (body & -> & Hjoin).
  assert (concat ((if Z.of_nat (length s) >? chunkSize then [[]] else []) ++ body)
          = concat body) as -> by by destruct (_ >? _).
  rewrite <- inked_join, Hjoin. unfold normalizedSentences.
  rewrite inked_trim, inked_join. unfold splitSentences.
  by rewrite inked_splitScan.
Qed.

(** X2.  The characters of the chunks that are not white space are those of
    the text, in the same order: chunking adds and removes white space
    only. *)
Theorem chunkText_keeps_ink (text : jsstring) (chunkSize : Z) :
  inked (concat (chunkText text chunkSize)) = inked text.
Proof. apply inked_chunkText. Qed.

(** ** A text that fits the bound *)

Lemma join_cons s s' l :
  join [space] (s :: s' :: l) = s ++ [space] ++ join [space] (s' :: l).
Proof. reflexivity. Qed.

Lemma splitScan_join_length text : forall cur sk,
  (length (join [space] (splitScan cur sk text)) <= length cur + length text)%nat.
Proof.
  induction text as [|c text IH]; intros cur sk; simpl; [lia|].
  destruct (isSpace c).
  - destruct sk; [specialize (IH cur true); lia|].
    destruct (endsSentence cur).
    + pose proof (splitScan_nonempty text [] true) as Hne.
      specialize (IH [] true).
      destruct (splitScan [] true text) as [|s' l]; [done|].
      rewrite join_cons, !length_app. simpl in *. lia.
    + specialize (IH (cur ++ [c]) false). rewrite length_app in IH.
      simpl in IH. lia.
  - specialize (IH (cur ++ [c]) false). rewrite length_app in IH.
    simpl in IH. lia.
Qed.

Lemma chunkLoop_fits chunkSize sentences : forall st,
  Z.of_nat (length (current st ++ join [space] sentences)) <= chunkSize ->
  chunkLoop chunkSize st sentences
  = {| chunks := chunks st; current := current st ++ buffer sentences |}.
Proof.
  induction sentences as [|s rest IH]; intros st Hfit.
  - simpl. rewrite app_nil_r. by destruct st.
  - change (chunkLoop chunkSize st (s :: rest))
      with (chunkLoop chunkSize (chunkStep chunkSize st s) rest).
    assert (chunkStep chunkSize st s
            = {| chunks := chunks st; current := current st ++ s ++ [space] |})
      as ->.
    { unfold chunkStep.
      destruct (Z.of_nat (length (current st ++ s)) >? chunkSize) eqn:Hc;
        [|done].
      rewrite Z.gtb_ltb, Z.ltb_lt in Hc. exfalso.
      destruct rest; [simpl in Hfit; lia|].
      rewrite join_cons, !length_app in Hfit. rewrite length_app in Hc. lia. }
    destruct rest as [|s' rest].
    + simpl. by rewrite app_nil_r.
    + rewrite IH; cbn [chunks current].
      * change (buffer (s :: s' :: rest))
          with ((s ++ [space]) ++ buffer (s' :: rest)).
        by rewrite <- !app_assoc.
      * rewrite join_cons in Hfit. by rewrite <- !app_assoc.
Qed.

(** X3.  A text no longer than the bound gives at most one chunk: its
    normalized sentence sequence, or nothing when the text is blank. *)
Theorem chunkText_fitting_text (text : jsstring) (chunkSize : Z) :
  Z.of_nat (length text) <= chunkSize ->
  chunkText text chunkSize
  = if truthy (normalizedSentences text) then [normalizedSentences text] else [].
Proof.
  intros Hfit. unfold chunkText, chunkSentences, normalizedSentences.
  pose proof (splitScan_join_length text [] false) as Hlen.
  pose proof (splitScan_nonempty text [] false) as Hne.
  fold (splitSentences text) in Hlen, Hne. simpl in Hlen.
  rewrite chunkLoop_fits by (simpl; lia).
  unfold chunkFlush. cbn [chunks current app].
  rewrite buffer_join by done.
  by rewrite trim_app_space by apply isSpace_space.
Qed.

(** A run that meets the hypotheses of [chunkText_fitting_text]. *)
Lemma chunkText_fitting_text_witness :
  chunkText (js " One.  Two. ") defaultChunkSize
  = if truthy (normalizedSentences (js " One.  Two. "))
    then [normalizedSentences (js " One.  Two. ")] else [].
Proof.
  apply (chunkText_fitting_text (js " One.  Two. ") defaultChunkSize).
  vm_compute. discriminate.
Defined.

(** * Properties of the markup stripper *)

Example stripTags_markup :
  stripTags (js "<p>One.</p> <b class='x'>Two.</b>") = js " One.   Two. ".
Proof. reflexivity. Qed.

Example stripTags_not_markup :
  stripTags (js "a <> b > c < d") = js "a <> b > c < d".
Proof. reflexivity. Qed.

Lemma stripScan_unclosed x : forall held,
  Forall (fun c => c <> greaterThan) x ->
  stripScan (Some held) x = lessThan :: held ++ x.
Proof.
  induction x as [|c x IH]; intros held Hx; simpl.
  - by rewrite app_nil_r.
  - apply Forall_cons in Hx as [Hc Hx].
    destruct (c =? greaterThan)%N eqn:Hcmp; [by apply N.eqb_eq in Hcmp|].
    rewrite IH by done. by rewrite <- app_assoc.
Qed.

Lemma stripScan_closed y rest : forall held,
  Forall (fun c => c <> greaterThan) y ->
  stripScan (Some held) (y ++ greaterThan :: rest)
  = match held ++ y with
    | [] => [lessThan; greaterThan]
    | _ :: _ => [space]
    end ++ stripScan None rest.
Proof.
  induction y as [|c y IH]; intros held Hy; simpl.
  - rewrite app_nil_r. by destruct held.
  - apply Forall_cons in Hy as [Hc Hy].
    destruct (c =? greaterThan)%N eqn:Hcmp; [by apply N.eqb_eq in Hcmp|].
    rewrite IH by done. rewrite <- app_assoc. simpl.
    destruct held; simpl; [done|]. by destruct (held ++ c :: y).
Qed.

Lemma first_greaterThan x :
  Forall (fun c => c <> greaterThan) x \/
  exists y rest, x = y ++ greaterThan :: rest /\
                 Forall (fun c => c <> greaterThan) y.
Proof.
  induction x as [|c x IH]; [by left|].
  destruct (decide (c = greaterThan)) as [->|Hc].
  - right. by exists [], x.
  - destruct IH as [H|(y & rest & -> & Hy)].
    + left. by constructor.
    + right. exists (c :: y), rest. split; [done|]. by constructor.
Qed.

(** X4.  A text without [<] has no markup to lose. *)
Theorem stripTags_no_lessThan (raw : jsstring) :
  Forall (fun c => c <> lessThan) raw -> stripTags raw = raw.
Proof.
  unfold stripTags. induction raw as [|c raw IH]; intros Hraw; [done|].
  apply Forall_cons in Hraw as [Hc Hraw]. simpl.
  destruct (c =? lessThan)%N eqn:Hcmp; [by apply N.eqb_eq in Hcmp|].
  by rewrite IH.
Qed.

Lemma stripScan_length raw : forall pending,
  (length (stripScan pending raw)
   <= length raw + match pending with
                   | Some held => 1 + length held
                   | None => 0
                   end)%nat.
Proof.
  induction raw as [|c raw IH]; intros [held|]; simpl; try lia.
  - destruct (c =? greaterThan)%N.
    + pose proof (IH None) as H. destruct held; simpl in *; lia.
    + pose proof (IH (Some (held ++ [c]))) as H. cbn iota in H.
      rewrite length_app in H. simpl in H. lia.
  - destruct (c =? lessThan)%N.
    + pose proof (IH (Some [])) as H. simpl in H. lia.
    + pose proof (IH None) as H. simpl in *. lia.
Qed.

(** X5.  Stripping never makes a text longer. *)
Theorem stripTags_length (raw : jsstring) :
  (length (stripTags raw) <= length raw)%nat.
Proof. pose proof (stripScan_length raw None) as H. simpl in H. unfold stripTags. lia. Qed.

Lemma stripScan_prefix a x :
  Forall (fun c => c <> lessThan) a ->
  stripScan None (a ++ x) = a ++ stripScan None x.
Proof.
  induction a as [|c a IH]; intros Ha; [done|].
  apply Forall_cons in Ha as [Hc Ha]. simpl.
  destruct (c =? lessThan)%N eqn:Hcmp; [by apply N.eqb_eq in Hcmp|].
  by rewrite IH.
Qed.

(** X6.  A tag, [<] then characters other than [>] then [>], becomes one
    space, and the text after it is stripped on its own. *)
Theorem stripTags_tag (before tag after : jsstring) :
  Forall (fun c => c <> lessThan) before ->
  tag <> [] ->
  Forall (fun c => c <> greaterThan) tag ->
  stripTags (before ++ lessThan :: tag ++ greaterThan :: after)
  = before ++ space :: stripTags after.
Proof.
  intros Hb Hne Htag. unfold stripTags. rewrite stripScan_prefix by done.
  f_equal. cbn [stripScan]. rewrite N.eqb_refl.
  rewrite stripScan_closed by done. by destruct tag.
Qed.

(** A run that meets the hypotheses of [stripTags_tag]. *)
Lemma stripTags_tag_witness :
  stripTags (js "a " ++ lessThan :: js "br/" ++ greaterThan :: js " b")
  = js "a " ++ space :: stripTags (js " b").
Proof.
  apply (stripTags_tag (js "a ") (js "br/") (js " b")).
  - repeat constructor; discriminate.
  - discriminate.
  - repeat constructor; discriminate.
Defined.

Lemma stripTags_idem_bounded (n : nat) : forall raw,
  (length raw <= n)%nat -> stripTags (stripTags raw) = stripTags raw.
Proof.
  unfold stripTags. induction n as [|n IH]; intros raw Hlen.
  - destruct raw; [done|]. simpl in Hlen. lia.
  - destruct raw as [|c raw]; [done|]. simpl in Hlen. cbn [stripScan].
    destruct (c =? lessThan)%N eqn:Hcmp.
    + destruct (first_greaterThan raw) as [Hno|(y & rest & -> & Hy)].
      * rewrite stripScan_unclosed by done. cbn [stripScan app].
        rewrite N.eqb_refl. by rewrite stripScan_unclosed.
      * rewrite stripScan_closed by done. cbn [app].
        rewrite length_app in Hlen. simpl in Hlen.
        destruct y as [|d y]; cbn [app stripScan].
        -- rewrite N.eqb_refl. cbn [stripScan]. rewrite N.eqb_refl.
           rewrite IH by lia. done.
        -- change (space =? lessThan)%N with false. cbn iota.
           rewrite IH by lia. done.
    + cbn [stripScan]. rewrite Hcmp. rewrite IH by lia. done.
Qed.

(** X7.  Stripping a stripped text changes nothing: no tag is left, and the
    spaces put in make none. *)
Theorem stripTags_idem (raw : jsstring) : stripTags (stripTags raw) = stripTags raw.
Proof. by apply (stripTags_idem_bounded (length raw)). Qed.

(** * Further properties of the handlers *)

Section HandlerProperties.

Context {Embedding : Type} (sv : Services Embedding).

Implicit Types (w : World Embedding) (name text : jsstring).

(** ** The indexer and the rest of the store *)

(** Indexing writes into the namespace of the document only, under the
    ids of the ordinals it goes through only, and leaves the upload
    directory alone. *)
Lemma indexFrom_frame name rest : forall i w,
  uploads (indexFrom sv name i rest w).2 = uploads w /\
  (forall ns, ns <> name ->
     vectors (indexFrom sv name i rest w).2 !! ns = vectors w !! ns) /\
  (forall id,
     (forall j, (j < length rest)%nat -> id <> name ++ js "-" ++ decimal (i + j)) ->
     recordAt (vectors (indexFrom sv name i rest w).2) name id
     = recordAt (vectors w) name id).
Proof.
  induction rest as [|c rest IH]; intros i w; [done|].
  rewrite indexFrom_cons.
  destruct (embeddings_create sv w embeddingModel c) as [v|e]; [|done].
  cbv zeta.
  destruct (upsert_fault sv _ name [chunkRecord name i c v]) as [e|]; [done|].
  match goal with |- context [indexFrom sv name (S i) rest ?w2] =>
    destruct (IH (S i) w2) as (Hu & Hns & Hid) end.
  split; [by rewrite Hu|]. split.
  - intros ns Hne. rewrite Hns by done. cbn [vectors logEvent setVectors].
    unfold storeRecords. by rewrite lookup_insert_ne.
  - intros id Hother. rewrite Hid.
    + cbn [vectors logEvent setVectors].
      apply recordAt_storeRecords_ne.
      specialize (Hother 0%nat). rewrite Nat.add_0_r in Hother.
      apply Hother. simpl. lia.
    + intros j Hj. rewrite Nat.add_succ_comm. apply Hother. simpl. lia.
Qed.

Lemma inked_nil_trim s : inked s = [] -> trim s = [].
Proof.
  intros Hs. assert (trimStart s = []) as Hts.
  { induction s as [|c s IH]; [done|]. unfold inked in Hs. simpl in *.
    destruct (isSpace c); [by apply IH|done]. }
  unfold trim. by rewrite Hts.
Qed.

(** A text that is not blank has at least one chunk. *)
Lemma chunkText_nonblank text chunkSize :
  truthy (trim text) = true -> chunkText text chunkSize <> [].
Proof.
  intros Ht Hnil. pose proof (inked_chunkText text chunkSize) as Hink.
  rewrite Hnil in Hink. symmetry in Hink. apply inked_nil_trim in Hink.
  by rewrite Hink in Ht.
Qed.

(** X8.  The success response of [/upload] counts the records written, and
    there is at least one. *)
Theorem upload_success_count name text w :
  status (upload sv name text w).1 = 200 ->
  (upload sv name text w).1
  = uploadOk name (length (chunkText text defaultChunkSize)) /\
  indexedCount (newEvents w (upload sv name text w).2)
  = length (chunkText text defaultChunkSize) /\
  (1 <= length (chunkText text defaultChunkSize))%nat.
Proof.
  rewrite upload_cases. destruct (truthy (trim text)) eqn:Ht; [|discriminate].
  pose proof (chunkText_nonblank text defaultChunkSize Ht) as Hne.
  unfold indexChunks.
  destruct (indexFrom_trace sv name (chunkText text defaultChunkSize) 0 w)
    as [embs Hrun].
  destruct (indexFrom sv name 0 (chunkText text defaultChunkSize) w)
    as [[u|e] w']; cbn [fst snd] in *; [|discriminate].
  intros _. destruct Hrun as [Hlen Hev]. split; [done|]. split.
  - rewrite (newEvents_app _ _ _ Hev), indexedCount_indexTrace, length_zip_with.
    lia.
  - destruct (chunkText text defaultChunkSize); [done|simpl; lia].
Qed.

Lemma upload_frame name text w ns :
  ns <> name ->
  vectors (upload sv name text w).2 !! ns = vectors w !! ns /\
  uploads (upload sv name text w).2 = uploads w.
Proof.
  intros Hne. rewrite upload_cases. destruct (truthy (trim text)); [|done].
  unfold indexChunks.
  destruct (indexFrom_frame name (chunkText text defaultChunkSize) 0 w)
    as (Hu & Hns & _).
  destruct (indexFrom sv name 0 (chunkText text defaultChunkSize) w)
    as [[u|e] w']; cbn [fst snd] in *; by rewrite Hns.
Qed.

(** X9.  Whatever its outcome, [/upload] changes no other namespace and no
    stored file. *)
Theorem upload_isolation name text w ns :
  ns <> name ->
  vectors (upload sv name text w).2 !! ns = vectors w !! ns /\
  uploads (upload sv name text w).2 = uploads w.
Proof. apply upload_frame. Qed.

(** X10.  [/upload] removes nothing: a record of the namespace whose id is not
    the id of one of the new chunks is still there afterwards, so a
    document indexed again with fewer chunks keeps its old records of
    higher ordinals. *)
Theorem upload_keeps_other_records name text w id :
  (forall i, (i < length (chunkText text defaultChunkSize))%nat ->
             id <> name ++ js "-" ++ decimal i) ->
  recordAt (vectors (upload sv name text w).2) name id
  = recordAt (vectors w) name id.
Proof.
  intros Hid. rewrite upload_cases. destruct (truthy (trim text)); [|done].
  unfold indexChunks.
  destruct (indexFrom_frame name (chunkText text defaultChunkSize) 0 w)
    as (_ & _ & Hrec).
  specialize (Hrec id Hid).
  by destruct (indexFrom sv name 0 (chunkText text defaultChunkSize) w)
    as [[u|e] w'].
Qed.

(** ** The query handler *)

Lemma collectMatches_frame vector namespaces : forall (acc : list Match) w,
  vectors (collectMatches sv vector namespaces acc w).2 = vectors w /\
  uploads (collectMatches sv vector namespaces acc w).2 = uploads w.
Proof.
  induction namespaces as [|ns rest IH]; intros acc w; [done|].
  rewrite collectMatches_cons.
  destruct (query_matches sv w ns vector topK true) as [a|e]; [|done].
  match goal with |- context [collectMatches sv vector rest ?acc' ?w1] =>
    destruct (IH acc' w1) as [-> ->] end.
  done.
Qed.

Lemma retrieve_frame q w :
  vectors (retrieve sv q w).2 = vectors w /\
  uploads (retrieve sv q w).2 = uploads w.
Proof.
  rewrite retrieve_cases.
  destruct (embeddings_create sv w embeddingModel q) as [v|e]; [|done].
  cbv zeta. destruct (listNamespaces sv _) as [nss|e]; [|done].
  match goal with |- context [collectMatches sv v ?l [] ?w1] =>
    destruct (collectMatches_frame v l [] w1) as [-> ->] end.
  done.
Qed.

(** The query handler, by cases, for a query that is not blank. *)
Lemma search_cases q w :
  truthy (trim q) = true ->
  search sv (Some q) w =
  match retrieve sv q w with
  | (Throw e, w1) => (errorResponse e, w1)
  | (Ok [], w1) => (notFoundResponse, w1)
  | (Ok (m :: pool), w1) =>
      let request :=
        chatRequest q (join (newline ++ newline) (List.map m_text (m :: pool))) in
      match chat_create sv w1 request with
      | Ok completion =>
          (answerResponse (trim completion) (m :: pool),
           logEvent (Completed request (Ok completion)) w1)
      | Throw e =>
          (errorResponse e, logEvent (Completed request (Throw e)) w1)
      end
  end.
Proof.
  intros Hq. unfold search, tryCatch, bind. rewrite Hq.
  destruct (retrieve sv q w) as [[[|m pool]|e] w1]; try reflexivity.
  unfold synthesize, bind, complete.
  by destruct (chat_create sv w1 _).
Qed.

(** X11.  A search reads: it changes neither the store nor the stored files. *)
Theorem search_read_only (q : option jsstring) w :
  vectors (search sv q w).2 = vectors w /\
  uploads (search sv q w).2 = uploads w.
Proof.
  destruct q as [q|]; [|done].
  destruct (truthy (trim q)) eqn:Hq.
  - rewrite (search_cases q w Hq).
    destruct (retrieve_frame q w) as [Hv Hu].
    destruct (retrieve sv q w) as [[[|m pool]|e] w1]; cbn [fst snd] in *; try done.
    cbv zeta. by destruct (chat_create sv w1 _).
  - unfold search, tryCatch. by rewrite Hq.
Qed.


Lemma trim_idem x : trim (trim x) = trim x.
Proof.
  destruct (trim x) as [|c y] eqn:Hx; [done|].
  assert (solid (trim x)) as (_ & Hs & He) by (apply solid_trim; by rewrite Hx).
  rewrite Hx in Hs, He. unfold trim. by rewrite Hs.
Qed.

(** X13.  A search answered with status 200 lists one source per match of the
    pool, in pool order; the answer has no white space around it; and the
    generation gateway was called once, or not at all when the pool is
    empty. *)
Theorem search_ok q w :
  truthy (trim q) = true ->
  status (search sv (Some q) w).1 = 200 ->
  exists pool answer,
    (retrieve sv q w).1 = Ok pool /\
    (search sv (Some q) w).1
    = {| status := 200;
         body := JObj [(js "answer", JStr answer);
                       (js "sources", JArr (List.map sourceOf pool))] |} /\
    trim answer = answer /\
    length (List.filter isCompletion (newEvents w (search sv (Some q) w).2))
    = match pool with [] => 0%nat | _ :: _ => 1%nat end.
Proof.
  intros Hq. rewrite (search_cases q w Hq).
  destruct (retrieve_no_completion sv q w) as (new & Hev & Hnew).
  assert (List.filter isCompletion new = []) as Hnone.
  { clear Hev. induction Hnew as [|ev l Hev _ IH]; [done|].
    simpl. by rewrite Hev. }
  destruct (retrieve sv q w) as [[[|m pool]|e] w1]; cbn [fst snd] in *;
    [| |discriminate].
  - intros _. exists [], notFoundAnswer. split; [done|]. split; [done|].
    split; [reflexivity|].
    by rewrite (newEvents_app _ _ _ Hev), Hnone.
  - cbv zeta. destruct (chat_create sv w1 _) as [c|e] eqn:Hc;
      cbn [fst snd]; [|discriminate].
    intros _. exists (m :: pool), (trim c). split; [done|]. split; [done|].
    split; [apply trim_idem|].
    rewrite (newEvents_app w _ (new ++ [Completed
      (chatRequest q (join (newline ++ newline) (List.map m_text (m :: pool))))
      (Ok c)])).
    + rewrite List.filter_app, Hnone. reflexivity.
    + cbn [events logEvent]. by rewrite Hev, <- app_assoc.
Qed.




(** ** Deleting *)

Lemma deleteFile_clears filename w :
  status (deleteFile sv filename w).1 = 200 ->
  vectors (deleteFile sv filename w).2 !! filename = None /\
  (filename ∉ uploads (deleteFile sv filename w).2) /\
  uploads (deleteFile sv filename w).2 = uploads w ∖ {[filename]}.
Proof.
  unfold deleteFile, tryCatch, bind, deleteAll, existsSync, unlink, ret.
  destruct (deleteAll_fault sv w filename) as [e|]; [discriminate|].
  cbn [uploads logEvent setVectors].
  destruct (bool_decide (filename ∈ uploads w)) eqn:Hin.
  - destruct (unlink_fault sv _ filename) as [e|]; [discriminate|].
    cbn [fst snd vectors uploads logEvent setVectors setUploads].
    intros _. split; [apply lookup_delete_eq|]. split; [|done].
    apply not_elem_of_difference. right. by apply elem_of_singleton.
  - cbn [fst snd vectors uploads logEvent setVectors].
    apply bool_decide_eq_false in Hin.
    intros _. split; [apply lookup_delete_eq|]. split; [done|].
    symmetry. apply difference_disjoint_L. by apply disjoint_singleton_r.
Qed.


(** X17.  Deleting a document after it was uploaded leaves the store as it was
    before the upload, less the namespace of the document, whatever the
    upload wrote and however it ended. *)
Theorem upload_then_delete name text w :
  deleteAll_fault sv (upload sv name text w).2 name = None ->
  vectors (deleteFile sv name (upload sv name text w).2).2
  = delete name (vectors w).
Proof.
  intros Hok.
  pose proof (fun ns => upload_frame name text w ns) as Hiso.
  set (w1 := (upload sv name text w).2) in *.
  assert (vectors (deleteFile sv name w1).2 = delete name (vectors w1)) as ->.
  { unfold deleteFile, tryCatch, bind, deleteAll, existsSync, unlink, ret.
    rewrite Hok. cbn [uploads logEvent setVectors].
    destruct (bool_decide (name ∈ uploads w1)); [|done].
    by destruct (unlink_fault sv _ name). }
  apply map_eq. intros ns. destruct (decide (ns = name)) as [->|Hne].
  - by rewrite !lookup_delete_eq.
  - rewrite !lookup_delete_ne by done. by apply Hiso.
Qed.

(** ** The whole upload request and the file listing *)

Context (fs : FileServices Embedding).

Lemma upload_uploads name text w :
  uploads (upload sv name text w).2 = uploads w.
Proof.
  rewrite upload_cases. destruct (truthy (trim text)); [|done].
  unfold indexChunks.
  destruct (indexFrom_frame name (chunkText text defaultChunkSize) 0 w)
    as (Hu & _).
  by destruct (indexFrom sv name 0 (chunkText text defaultChunkSize) w)
    as [[u|e] w'].
Qed.

Lemma indexText_run name text w :
  indexText sv name text w
  = (Ok (upload sv name text w).1, (upload sv name text w).2).
Proof. unfold indexText. by destruct (upload sv name text w). Qed.

Lemma uploadRequest_keeps_file name w :
  mv_fault fs w name = None ->
  name ∈ uploads (uploadRequest fs sv (Some name) w).2.
Proof.
  intros Hmv. unfold uploadRequest, tryCatch, bind, mv, pdfParse, readText, ret.
  rewrite Hmv.
  set (w1 := setUploads ({[name]} ∪ uploads w) w).
  assert (name ∈ uploads w1) as Hin.
  { cbn [uploads w1 setUploads]. apply elem_of_union_l. by apply elem_of_singleton. }
  assert (forall text, name ∈ uploads (upload sv name text w1).2) as Hkeep.
  { intros text. by rewrite upload_uploads. }
  destruct (bool_decide (lowerExt fs name = js ".pdf")).
  { destruct (pdf_text fs w1 name) as [t|e]; [|done].
    rewrite indexText_run. apply Hkeep. }
  destruct (bool_decide (lowerExt fs name = js ".txt")).
  { destruct (read_text fs w1 name) as [t|e]; [|done].
    rewrite indexText_run. apply Hkeep. }
  destruct (bool_decide (lowerExt fs name = js ".html")
            || bool_decide (lowerExt fs name = js ".htm")); [|done].
  destruct (read_text fs w1 name) as [t|e]; [|done].
  rewrite indexText_run. apply Hkeep.
Qed.

(** X18.  Once the upload is stored it stays stored, whatever the answer: an
    extension that is not supported, a text that cannot be read or is
    blank, a gateway or store failure. *)
Theorem uploadRequest_stores_file name w :
  mv_fault fs w name = None ->
  name ∈ uploads (uploadRequest fs sv (Some name) w).2.
Proof. apply uploadRequest_keeps_file. Qed.

(** X19.  A file whose extension is none of [.pdf], [.txt], [.html], [.htm] is
    answered without a call to a gateway or to the store, with status 400
    when it could be stored. *)
Theorem uploadRequest_unsupported name w :
  lowerExt fs name <> js ".pdf" -> lowerExt fs name <> js ".txt" ->
  lowerExt fs name <> js ".html" -> lowerExt fs name <> js ".htm" ->
  events (uploadRequest fs sv (Some name) w).2 = events w /\
  vectors (uploadRequest fs sv (Some name) w).2 = vectors w /\
  (mv_fault fs w name = None ->
   (uploadRequest fs sv (Some name) w).1
   = {| status := 400;
        body := JObj [(js "error",
                       JStr (js "Only PDF, TXT, and HTML supported."))] |}).
Proof.
  intros H1 H2 H3 H4.
  unfold uploadRequest, tryCatch, bind, mv, ret.
  rewrite !bool_decide_eq_false_2 by done. cbn [orb].
  by destruct (mv_fault fs w name).
Qed.

Lemma indexTrace_texts name (indexed : list (jsstring * Embedding)) : forall i,
  List.map (fun u => List.map (fun r => md_text (vr_metadata r)) u.2)
    (upsertsIssued (indexTrace name i indexed))
  = List.map (fun cv => [cv.1]) indexed.
Proof.
  induction indexed as [|[c v] l IH]; intros i; [done|].
  simpl. f_equal. apply IH.
Qed.

Lemma zip_texts (l : list jsstring) : forall embs : list Embedding,
  length embs = length l ->
  List.map (fun cv => [cv.1]) (zip l embs) = List.map (fun c => [c]) l.
Proof.
  induction l as [|c l IH]; intros [|v embs] Hlen; try done.
  simpl. f_equal. apply IH. by injection Hlen.
Qed.

(** X20.  An HTML upload is indexed as its text with the markup stripped: when
    it succeeds, the records written carry, in order, the chunks of the
    stripped text. *)
Theorem uploadRequest_html name raw w :
  lowerExt fs name = js ".html" \/ lowerExt fs name = js ".htm" ->
  mv_fault fs w name = None ->
  read_text fs (setUploads ({[name]} ∪ uploads w) w) name = Ok raw ->
  status (uploadRequest fs sv (Some name) w).1 = 200 ->
  List.map (fun u => List.map (fun r => md_text (vr_metadata r)) u.2)
    (upsertsIssued (newEvents w (uploadRequest fs sv (Some name) w).2))
  = List.map (fun chunk => [chunk]) (chunkText (stripTags raw) defaultChunkSize).
Proof.
  intros Hext Hmv Hread.
  set (w1 := setUploads ({[name]} ∪ uploads w) w) in *.
  assert ((uploadRequest fs sv (Some name) w)
          = upload sv name (stripTags raw) w1) as ->.
  { unfold uploadRequest, tryCatch, bind, mv, pdfParse, readText, ret.
    rewrite Hmv. fold w1.
    assert (bool_decide (lowerExt fs name = js ".pdf") = false) as ->.
    { apply bool_decide_eq_false_2.
      destruct Hext as [->| ->]; intros H; vm_compute in H; discriminate H. }
    assert (bool_decide (lowerExt fs name = js ".txt") = false) as ->.
    { apply bool_decide_eq_false_2.
      destruct Hext as [->| ->]; intros H; vm_compute in H; discriminate H. }
    assert (bool_decide (lowerExt fs name = js ".html")
            || bool_decide (lowerExt fs name = js ".htm") = true) as ->.
    { destruct Hext as [->| ->].
      - by rewrite bool_decide_eq_true_2.
      - rewrite (bool_decide_eq_true_2 (js ".htm" = js ".htm")) by done.
        apply orb_true_r. }
    rewrite Hread, indexText_run. by destruct (upload sv name (stripTags raw) w1). }
  assert (newEvents w (upload sv name (stripTags raw) w1).2
          = newEvents w1 (upload sv name (stripTags raw) w1).2) as -> by done.
  rewrite upload_cases. destruct (truthy (trim (stripTags raw))); [|discriminate].
  unfold indexChunks.
  destruct (indexFrom_trace sv name (chunkText (stripTags raw) defaultChunkSize)
              0 w1) as [embs Hrun].
  destruct (indexFrom sv name 0 (chunkText (stripTags raw) defaultChunkSize) w1)
    as [[u|e] w']; cbn [fst snd] in *; [|discriminate].
  intros _. destruct Hrun as [Hlen Hev].
  rewrite (newEvents_app _ _ _ Hev), indexTrace_texts. by apply zip_texts.
Qed.

(** X21.  The listing of [/files] shows an upload as soon as it is stored,
    whatever became of its indexing. *)
Theorem listFiles_after_upload name w :
  mv_fault fs w name = None ->
  readdir_fault fs (uploadRequest fs sv (Some name) w).2 = None ->
  exists names,
    (listFiles fs (uploadRequest fs sv (Some name) w).2).1
    = {| status := 200; body := JArr (JStr <$> names) |} /\ name ∈ names.
Proof.
  intros Hmv Hdir. unfold listFiles. rewrite Hdir. eexists. split; [done|].
  apply elem_of_elements. by apply uploadRequest_keeps_file.
Qed.

(** X22.  The listing of [/files] no longer shows a file once a delete of it was
    answered with status 200. *)
Theorem listFiles_after_delete name w :
  status (deleteFile sv name w).1 = 200 ->
  readdir_fault fs (deleteFile sv name w).2 = None ->
  exists names,
    (listFiles fs (deleteFile sv name w).2).1
    = {| status := 200; body := JArr (JStr <$> names) |} /\ name ∉ names.
Proof.
  intros Hok Hdir. unfold listFiles. rewrite Hdir. eexists. split; [done|].
  rewrite elem_of_elements. by apply deleteFile_clears.
Qed.

End HandlerProperties.

(** * Runs that meet the hypotheses of the further properties *)

(** A run that meets the hypotheses of [stripTags_no_lessThan]. *)
Lemma stripTags_no_lessThan_witness : stripTags (js "a > b") = js "a > b".
Proof.
  apply (stripTags_no_lessThan (js "a > b")).
  repeat constructor; discriminate.
Defined.

(** A run that meets the hypotheses of [upload_success_count]. *)
Lemma upload_success_count_witness :
  (upload memoryStore (js "a.txt") twoLongSentences emptyWorld).1
  = uploadOk (js "a.txt") (length (chunkText twoLongSentences defaultChunkSize)) /\
  indexedCount
    (newEvents emptyWorld
       (upload memoryStore (js "a.txt") twoLongSentences emptyWorld).2)
  = length (chunkText twoLongSentences defaultChunkSize) /\
  (1 <= length (chunkText twoLongSentences defaultChunkSize))%nat.
Proof.
  apply (upload_success_count memoryStore (js "a.txt") twoLongSentences emptyWorld).
  vm_compute. reflexivity.
Defined.

(** A run that meets the hypotheses of [upload_isolation]. *)
Lemma upload_isolation_witness :
  vectors (upload memoryStore (js "b.txt") (js "Three.") afterUpload).2
    !! js "a.txt"
  = vectors afterUpload !! js "a.txt" /\
  uploads (upload memoryStore (js "b.txt") (js "Three.") afterUpload).2
  = uploads afterUpload.
Proof.
  apply (upload_isolation memoryStore (js "b.txt") (js "Three.") afterUpload
           (js "a.txt")).
  intros H. vm_compute in H. discriminate H.
Defined.

(** A run that meets the hypotheses of [upload_keeps_other_records]. *)
Lemma upload_keeps_other_records_witness :
  recordAt
    (vectors
       (upload memoryStore (js "a.txt") (js "One.")
          (upload memoryStore (js "a.txt") twoLongSentences emptyWorld).2).2)
    (js "a.txt") (js "a.txt-1")
  = recordAt
      (vectors (upload memoryStore (js "a.txt") twoLongSentences emptyWorld).2)
      (js "a.txt") (js "a.txt-1").
Proof.
  apply (upload_keeps_other_records memoryStore (js "a.txt") (js "One.")).
  intros i Hi. assert (i = 0%nat) as -> by (vm_compute in Hi; lia).
  intros H. vm_compute in H. discriminate H.
Defined.

(** A run that meets the hypotheses of [search_ok]. *)
Lemma search_ok_witness :
  exists pool answer,
    (retrieve memoryStore (js "Two?") afterUpload).1 = Ok pool /\
    (search memoryStore (Some (js "Two?")) afterUpload).1
    = {| status := 200;
         body := JObj [(js "answer", JStr answer);
                       (js "sources", JArr (List.map sourceOf pool))] |} /\
    trim answer = answer /\
    length (List.filter isCompletion
              (newEvents afterUpload
                 (search memoryStore (Some (js "Two?")) afterUpload).2))
    = match pool with [] => 0%nat | _ :: _ => 1%nat end.
Proof.
  apply (search_ok memoryStore (js "Two?") afterUpload).
  - reflexivity.
  - vm_compute. reflexivity.
Defined.





(** A run that meets the hypotheses of [upload_then_delete]. *)
Lemma upload_then_delete_witness :
  vectors
    (deleteFile strictStore (js "b.txt")
       (upload strictStore (js "b.txt") (js "Three.") afterUpload).2).2
  = delete (js "b.txt") (vectors afterUpload).
Proof.
  apply (upload_then_delete strictStore (js "b.txt") (js "Three.") afterUpload).
  vm_compute. reflexivity.
Defined.

(** A run that meets the hypotheses of [uploadRequest_stores_file]. *)
Lemma uploadRequest_stores_file_witness :
  js "photo.png"
    ∈ uploads (uploadRequest plainFiles memoryStore (Some (js "photo.png"))
                 emptyWorld).2.
Proof.
  apply (uploadRequest_stores_file memoryStore plainFiles (js "photo.png")
           emptyWorld).
  reflexivity.
Defined.

(** A run that meets the hypotheses of [uploadRequest_unsupported]. *)
Lemma uploadRequest_unsupported_witness :
  events (uploadRequest plainFiles memoryStore (Some (js "photo.png"))
            afterUpload).2 = events afterUpload /\
  vectors (uploadRequest plainFiles memoryStore (Some (js "photo.png"))
             afterUpload).2 = vectors afterUpload /\
  (mv_fault plainFiles afterUpload (js "photo.png") = None ->
   (uploadRequest plainFiles memoryStore (Some (js "photo.png")) afterUpload).1
   = {| status := 400;
        body := JObj [(js "error",
                       JStr (js "Only PDF, TXT, and HTML supported."))] |}).
Proof.
  apply (uploadRequest_unsupported memoryStore plainFiles (js "photo.png")
           afterUpload);
    intros H; vm_compute in H; discriminate H.
Defined.

(** A run that meets the hypotheses of [uploadRequest_html]. *)
Lemma uploadRequest_html_witness :
  List.map (fun u => List.map (fun r => md_text (vr_metadata r)) u.2)
    (upsertsIssued
       (newEvents emptyWorld
          (uploadRequest plainFiles memoryStore (Some (js "notes.html"))
             emptyWorld).2))
  = List.map (fun chunk => [chunk])
      (chunkText (stripTags (js "<p>One.</p> <p>Two.</p>")) defaultChunkSize).
Proof.
  apply (uploadRequest_html memoryStore plainFiles (js "notes.html")
           (js "<p>One.</p> <p>Two.</p>") emptyWorld).
  - left. reflexivity.
  - reflexivity.
  - reflexivity.
  - vm_compute. reflexivity.
Defined.

(** A run that meets the hypotheses of [listFiles_after_upload]. *)
Lemma listFiles_after_upload_witness :
  exists names,
    (listFiles plainFiles
       (uploadRequest plainFiles memoryStore (Some (js "notes.html"))
          emptyWorld).2).1
    = {| status := 200; body := JArr (JStr <$> names) |} /\
    js "notes.html" ∈ names.
Proof.
  apply (listFiles_after_upload memoryStore plainFiles (js "notes.html")
           emptyWorld); reflexivity.
Defined.

(** A run that meets the hypotheses of [listFiles_after_delete]. *)
Lemma listFiles_after_delete_witness :
  exists names,
    (listFiles plainFiles
       (deleteFile memoryStore (js "notes.html")
          (uploadRequest plainFiles memoryStore (Some (js "notes.html"))
             emptyWorld).2).2).1
    = {| status := 200; body := JArr (JStr <$> names) |} /\
    js "notes.html" ∉ names.
Proof.
  apply (listFiles_after_delete memoryStore plainFiles (js "notes.html")).
  - vm_compute. reflexivity.
  - reflexivity.
Defined.

Example uploadRequest_html_run :
  (uploadRequest plainFiles memoryStore (Some (js "notes.html")) emptyWorld).1
  = uploadOk (js "notes.html") 1 /\
  writtenRanges
    (events (uploadRequest plainFiles memoryStore (Some (js "notes.html"))
               emptyWorld).2)
  = [[(js "One. Two.", 1, 15)]].
Proof. vm_compute. split; reflexivity. Qed.
